(** * css-selector-finder: a shallow embedding of [CSSPathStep] and
      [CSSSelectorFinder], and the properties of the selector they build.

    The development follows the two source files:
    - [CSSPathStep] (with [DOMNodePathStep] and [WritingMode]): one step of the
      selector, built from an element and its siblings;
    - [CSSSelectorFinder]: the ascent from the target to the first optimized
      step, and the rendering with the child combinator.

    JavaScript values are modelled as follows.
    - A string is the list of its UTF-16 code units ([jsstring]).
    - A regular expression is a term of [regex]; [RegExp.prototype.test] is
      Brzozowski-derivative matching.
    - The DOM is a finite tree ([DomTree]); a reference to a node ([Node]) is a
      position in that tree: the subtree at the node and the frames of its
      ancestors.
    - A [throw] is the [Throw] constructor of [result].
    - [String.prototype.toLowerCase] is a parameter of the development. *)

From Stdlib Require Import String Ascii ZArith NArith Arith Bool Lia List.
From Stdlib Require Import DecimalString HexadecimalString.
Import ListNotations.

Set Implicit Arguments.
Set Warnings "-register-all".

(* ================================================================== *)
(** ** JavaScript strings *)

Module JS.

(** A string is a sequence of UTF-16 code units. *)
Definition jsstring := list N.

(** The code unit of an ASCII character, and the string of a literal. *)
Definition cu (a : ascii) : N := N_of_ascii a.
Definition lit (s : string) : jsstring :=
  map N_of_ascii (list_ascii_of_string s).

(** [a === b] on strings. *)
Fixpoint str_eqb (a b : jsstring) : bool :=
  match a, b with
  | [], [] => true
  | x :: a', y :: b' => N.eqb x y && str_eqb a' b'
  | _, _ => false
  end.

(** Truthiness of a [string | null] value: neither [null] nor empty. *)
Definition truthy (v : option jsstring) : bool :=
  match v with
  | Some (_ :: _) => true
  | _ => false
  end.

(** [arr.includes(x)] and [arr.indexOf(x)] on an array of strings. *)
Definition includes (arr : list jsstring) (x : jsstring) : bool :=
  existsb (str_eqb x) arr.

Fixpoint indexOf (arr : list jsstring) (x : jsstring) : Z :=
  match arr with
  | [] => (-1)%Z
  | y :: arr' =>
      if str_eqb y x then 0%Z
      else let k := indexOf arr' x in
           if (k =? -1)%Z then (-1)%Z else (k + 1)%Z
  end.

(** [arr.splice(start, 1)] for [0 <= start]: the array without the element at
    [start] (unchanged when [start] is past the end). *)
Fixpoint splice1 (arr : list jsstring) (start : nat) : list jsstring :=
  match arr, start with
  | [], _ => []
  | _ :: arr', O => arr'
  | y :: arr', S k => y :: splice1 arr' k
  end.

(** [s.substring(1)]. *)
Definition substring1 (s : jsstring) : jsstring := tl s.

(** [arr.join(sep)]; [null] entries are rendered as the empty string. *)
Fixpoint join (sep : jsstring) (arr : list (option jsstring)) : jsstring :=
  match arr with
  | [] => []
  | [x] => match x with Some s => s | None => [] end
  | x :: arr' =>
      (match x with Some s => s | None => [] end) ++ sep ++ join sep arr'
  end.

(** [n.toString(16)] and the decimal rendering of an integer in a template
    literal. *)
Definition toString16 (n : N) : jsstring :=
  lit (HexadecimalString.NilZero.string_of_uint (N.to_hex_uint n)).

Definition toStringZ (z : Z) : jsstring :=
  lit (DecimalString.NilZero.string_of_int (Z.to_int z)).

(** Line terminators, which [.] does not match, and the white space that
    [\s] matches. *)
Definition isLineTerminator (c : N) : bool :=
  (c =? 0x0a)%N || (c =? 0x0d)%N || (c =? 0x2028)%N || (c =? 0x2029)%N.

Definition isWhiteSpace (c : N) : bool :=
  ((0x09 <=? c) && (c <=? 0x0d))%N || (c =? 0x20)%N || (c =? 0xa0)%N
  || (c =? 0x1680)%N || ((0x2000 <=? c) && (c <=? 0x200a))%N
  || (c =? 0x2028)%N || (c =? 0x2029)%N || (c =? 0x202f)%N
  || (c =? 0x205f)%N || (c =? 0x3000)%N || (c =? 0xfeff)%N.

(** [s.split(/\s+/g)]: the pieces between the maximal runs of white space,
    empty first and last pieces included. [cur] is the piece being read (in
    reverse); [inSep] tells that the previous code unit was white space. *)
Fixpoint splitWsFrom (s : jsstring) (cur : jsstring) (inSep : bool)
  : list jsstring :=
  match s with
  | [] => [rev cur]
  | c :: s' =>
      if isWhiteSpace c then
        if inSep then splitWsFrom s' [] true
        else rev cur :: splitWsFrom s' [] true
      else splitWsFrom s' (c :: cur) false
  end.

Definition splitWs (s : jsstring) : list jsstring := splitWsFrom s [] false.

(** [arr.filter(Boolean)] on strings: the non-empty ones. *)
Definition filterBoolean (arr : list jsstring) : list jsstring :=
  filter (fun s => match s with [] => false | _ => true end) arr.

(** [s.replace(/./g, f)]: every code unit that is not a line terminator is
    replaced by [f c i], [i] being its offset; the others are kept. *)
Fixpoint replaceDotFrom (f : N -> Z -> jsstring) (s : jsstring) (i : Z)
  : jsstring :=
  match s with
  | [] => []
  | c :: s' =>
      (if isLineTerminator c then [c] else f c i)
        ++ replaceDotFrom f s' (i + 1)%Z
  end.

Definition replaceDot (f : N -> Z -> jsstring) (s : jsstring) : jsstring :=
  replaceDotFrom f s 0%Z.

End JS.
Import JS.

(* ================================================================== *)
(** ** Regular expressions *)

Module Regex.

(** The fragment of the regular expressions that the source uses: character
    classes, concatenation, alternation, [?] and [*]. *)
Inductive regex : Type :=
| Void : regex
| Eps : regex
| Class : (N -> bool) -> regex
| Cat : regex -> regex -> regex
| Alt : regex -> regex -> regex
| Star : regex -> regex.

Definition Opt (r : regex) : regex := Alt r Eps.
Definition Chr (a : ascii) : regex := Class (N.eqb (cu a)).
Definition AnyStar : regex := Star (Class (fun _ => true)).

Fixpoint nullable (r : regex) : bool :=
  match r with
  | Void => false
  | Eps => true
  | Class _ => false
  | Cat r1 r2 => nullable r1 && nullable r2
  | Alt r1 r2 => nullable r1 || nullable r2
  | Star _ => true
  end.

Fixpoint deriv (c : N) (r : regex) : regex :=
  match r with
  | Void => Void
  | Eps => Void
  | Class p => if p c then Eps else Void
  | Cat r1 r2 =>
      if nullable r1 then Alt (Cat (deriv c r1) r2) (deriv c r2)
      else Cat (deriv c r1) r2
  | Alt r1 r2 => Alt (deriv c r1) (deriv c r2)
  | Star r1 => Cat (deriv c r1) (Star r1)
  end.

(** The whole string is in the language of [r]. *)
Fixpoint matches (r : regex) (s : jsstring) : bool :=
  match s with
  | [] => nullable r
  | c :: s' => matches (deriv c r) s'
  end.

(** [/^r$/.test(s)], [/^r/.test(s)] and [/r/.test(s)] (no flags). *)
Definition testWhole (r : regex) (s : jsstring) : bool := matches r s.
Definition testPrefix (r : regex) (s : jsstring) : bool :=
  matches (Cat r AnyStar) s.
Definition testSearch (r : regex) (s : jsstring) : bool :=
  matches (Cat AnyStar (Cat r AnyStar)) s.

(** The language of a regular expression. *)
Inductive lang : regex -> jsstring -> Prop :=
| lang_eps : lang Eps []
| lang_class : forall (p : N -> bool) c, p c = true -> lang (Class p) [c]
| lang_cat : forall r1 r2 s1 s2,
    lang r1 s1 -> lang r2 s2 -> lang (Cat r1 r2) (s1 ++ s2)
| lang_alt_l : forall r1 r2 s, lang r1 s -> lang (Alt r1 r2) s
| lang_alt_r : forall r1 r2 s, lang r2 s -> lang (Alt r1 r2) s
| lang_star_nil : forall r, lang (Star r) []
| lang_star_cons : forall r c s1 s2,
    lang r (c :: s1) -> lang (Star r) s2 -> lang (Star r) (c :: s1 ++ s2).

(** The character classes of the source. *)
Definition inRange (lo hi : ascii) (c : N) : bool :=
  (cu lo <=? c)%N && (c <=? cu hi)%N.

Definition isDigit (c : N) : bool := inRange "0" "9" c.
Definition isDash (c : N) : bool := (c =? cu "-")%N.
(** [[a-zA-Z_]] *)
Definition isIdentStart (c : N) : bool :=
  inRange "a" "z" c || inRange "A" "Z" c || (c =? cu "_")%N.
(** [[a-zA-Z0-9_-]] *)
Definition isIdentClass (c : N) : bool :=
  inRange "a" "z" c || inRange "A" "Z" c || inRange "0" "9" c
  || (c =? cu "_")%N || (c =? cu "-")%N.
(** [[0-9-]] *)
Definition isDigitOrDash (c : N) : bool := inRange "0" "9" c || (c =? cu "-")%N.

End Regex.
Import Regex.

(* ================================================================== *)
(** ** The DOM *)

Module DOM.

(** [Node.nodeType], as far as the source tells the values apart. *)
Inductive NodeType : Type := ELEMENT_NODE | DOCUMENT_NODE | OTHER_NODE.

Definition nodeType_eqb (a b : NodeType) : bool :=
  match a, b with
  | ELEMENT_NODE, ELEMENT_NODE => true
  | DOCUMENT_NODE, DOCUMENT_NODE => true
  | OTHER_NODE, OTHER_NODE => true
  | _, _ => false
  end.

(** A DOM tree: the type of the node, its tag name (as [Element.tagName]
    gives it, meaningful for elements), its attributes in order and its child
    nodes in document order. *)
Inductive DomTree : Type :=
  mkTree { treeType : NodeType;
           treeTag : jsstring;
           treeAttributes : list (jsstring * jsstring);
           treeChildNodes : list DomTree }.

(** One ancestor seen from a node below it: the ancestor's own data, and the
    siblings before and after the child through which the path goes. *)
Record Frame : Type :=
  mkFrame { frameType : NodeType;
            frameTag : jsstring;
            frameAttributes : list (jsstring * jsstring);
            before : list DomTree;
            after : list DomTree }.

(** A reference to a node of a tree: the subtree at the node and the frames
    of its ancestors, the parent first. Every value of this type is a node of
    exactly one finite tree, the one obtained by plugging the frames back. *)
Record Node : Type :=
  mkNode { self : DomTree;
           ancestors : list Frame }.

Definition plug (f : Frame) (t : DomTree) : DomTree :=
  mkTree (frameType f) (frameTag f) (frameAttributes f)
         (before f ++ t :: after f).

Definition nodeType (n : Node) : NodeType := treeType (self n).
Definition tagName (n : Node) : jsstring := treeTag (self n).

Definition isElement (t : DomTree) : bool :=
  nodeType_eqb (treeType t) ELEMENT_NODE.

(** [element.getAttribute(name)]: the value of the first attribute of that
    name, or [null]. *)
Fixpoint lookupAttribute (attrs : list (jsstring * jsstring)) (name : jsstring)
  : option jsstring :=
  match attrs with
  | [] => None
  | (k, v) :: attrs' =>
      if str_eqb k name then Some v else lookupAttribute attrs' name
  end.

Definition getAttribute (n : Node) (name : jsstring) : option jsstring :=
  lookupAttribute (treeAttributes (self n)) name.

(** [node.parentNode]. *)
Definition parentNode (n : Node) : option Node :=
  match ancestors n with
  | [] => None
  | f :: fs => Some (mkNode (plug f (self n)) fs)
  end.

(** [node.parentElement]: the parent when it is an element. *)
Definition parentElement (n : Node) : option Node :=
  match parentNode n with
  | Some p => if nodeType_eqb (nodeType p) ELEMENT_NODE then Some p else None
  | None => None
  end.

(** [node.childNodes]: the references to the children, in document order.
    [pre] holds the children already passed. *)
Fixpoint childNodesFrom (ty : NodeType) (tag : jsstring)
    (attrs : list (jsstring * jsstring)) (fs : list Frame)
    (pre rest : list DomTree) : list Node :=
  match rest with
  | [] => []
  | t :: rest' =>
      mkNode t (mkFrame ty tag attrs pre rest' :: fs)
        :: childNodesFrom ty tag attrs fs (pre ++ [t]) rest'
  end.

Definition childNodes (n : Node) : list Node :=
  childNodesFrom (treeType (self n)) (treeTag (self n))
                 (treeAttributes (self n)) (ancestors n)
                 [] (treeChildNodes (self n)).

(** [parent.children]: the child nodes that are elements. *)
Definition children (n : Node) : list Node :=
  filter (fun c => nodeType_eqb (nodeType c) ELEMENT_NODE) (childNodes n).

(** The position of a node in its tree: the index of each node of the path
    among the child nodes of its parent, the node's own index first. *)
Definition position (n : Node) : list nat :=
  map (fun f => length (before f)) (ancestors n).

Fixpoint position_eqb (p q : list nat) : bool :=
  match p, q with
  | [], [] => true
  | i :: p', j :: q' => Nat.eqb i j && position_eqb p' q'
  | _, _ => false
  end.

(** [a === b] for two nodes of one tree: they are at the same position. *)
Definition sameNode (a b : Node) : bool :=
  position_eqb (position a) (position b).

(** The number of proper ancestors of a node: 0 for the root of its tree. *)
Definition depth (n : Node) : nat := length (ancestors n).

(** The root of a tree, and the node reached from a node by a list of child
    indices. *)
Definition root (t : DomTree) : Node := mkNode t [].

Fixpoint descend (n : Node) (p : list nat) : option Node :=
  match p with
  | [] => Some n
  | i :: p' =>
      match nth_error (childNodes n) i with
      | Some c => descend c p'
      | None => None
      end
  end.

(** The root of the tree a node belongs to. *)
Fixpoint rootTreeFrom (t : DomTree) (fs : list Frame) : DomTree :=
  match fs with
  | [] => t
  | f :: fs' => rootTreeFrom (plug f t) fs'
  end.

Definition rootTree (n : Node) : DomTree := rootTreeFrom (self n) (ancestors n).

(** The number of element children of the parent that come before the node:
    its zero-based position among the element children of its parent. *)
Definition elementPosition (n : Node) : nat :=
  match ancestors n with
  | [] => 0
  | f :: _ => length (filter isElement (before f))
  end.

End DOM.
Import DOM.

(* ================================================================== *)
(** ** Exceptions *)

(** What the code throws: [Error('Element is not one.')],
    [Error('The child of a Document must be <html></html>')], and the
    [TypeError] of reading [children] of a null [parentNode]. *)
Inductive Error : Type :=
| ElementIsNotOne
| ChildOfDocumentMustBeHtml
| TypeErrorNullParent.

Inductive result (A : Type) : Type :=
| Ok : A -> result A
| Throw : Error -> result A.

Arguments Ok {A} _.
Arguments Throw {A} _.

Definition bind {A B : Type} (r : result A) (k : A -> result B) : result B :=
  match r with
  | Ok a => k a
  | Throw e => Throw e
  end.

Definition mapResult {A B : Type} (f : A -> B) (r : result A) : result B :=
  bind r (fun a => Ok (f a)).

Notation "x <- r ;; k" := (bind r (fun x => k))
  (at level 61, r at next level, right associativity).

(* ================================================================== *)
(** ** DOMNodePathStep and WritingMode *)

Record DOMNodePathStep : Type :=
  mkDOMNodePathStep { stepValue : option jsstring;
                      stepOptimized : bool }.

Inductive WritingMode : Type := NTH_CHILD | TAGNAME_AND_CLASSNAME.

(* ================================================================== *)
(** ** CSSPathStep: identifiers *)

(** [/^-?[a-zA-Z_][a-zA-Z0-9_-]*$/] *)
Definition reCSSIdentifier : regex :=
  Cat (Opt (Chr "-")) (Cat (Class isIdentStart) (Star (Class isIdentClass))).

(** [/^(?:[0-9]|-[0-9-]?)/] *)
Definition reShouldEscapeFirst : regex :=
  Alt (Class isDigit) (Cat (Chr "-") (Opt (Class isDigitOrDash))).

(** [/[a-zA-Z0-9_-]/] *)
Definition reCSSIdentChar : regex := Class isIdentClass.

(** The double quote and the backslash, and the code unit of [[]. *)
Definition dquote : jsstring := [cu "034"].
Definition backslash : jsstring := [cu "092"].
Definition bracket : N := cu "[".

Definition isCSSIdentifier (value : jsstring) : bool :=
  testWhole reCSSIdentifier value.

(** [c] is the one code unit that [.] matched. *)
Definition isCSSIdentChar (c : N) : bool :=
  if testSearch reCSSIdentChar [c] then true else (0xa0 <=? c)%N.

Definition toHexByte (c : N) : jsstring :=
  let hexByte := toString16 c in
  if Nat.eqb (length hexByte) 1 then lit "0" ++ hexByte else hexByte.

Definition escapeAsciiChar (c : N) (isLast : bool) : jsstring :=
  backslash ++ toHexByte c ++ (if isLast then [] else lit " ").

Definition escapeIdentifierIfNeeded (ident : jsstring) : jsstring :=
  if isCSSIdentifier ident then ident
  else
    let shouldEscapeFirst := testPrefix reShouldEscapeFirst ident in
    let lastIndex := (Z.of_nat (length ident) - 1)%Z in
    replaceDot
      (fun c i =>
         if (shouldEscapeFirst && (i =? 0)%Z) || negb (isCSSIdentChar c)
         then escapeAsciiChar c (i =? lastIndex)%Z
         else [c])
      ident.

Definition idSelector (id : jsstring) : jsstring :=
  lit "#" ++ escapeIdentifierIfNeeded id.

(** The classes of a node, each prefixed with [$]. *)
Definition prefixedElementClassNames (node : Node) : list jsstring :=
  match getAttribute node (lit "class") with
  | None => []
  | Some [] => []
  | Some classAttribute =>
      map (fun name => lit "$" ++ name)
          (filterBoolean (splitWs classAttribute))
  end.

(** [arr.values()] is an Array Iterator object. [for (k in obj)] visits the
    enumerable string-keyed properties of [obj] and of its prototypes; an Array
    Iterator has none ([next] is on the prototype and is not enumerable). *)
Inductive ArrayIterator : Type := values : list jsstring -> ArrayIterator.

Definition forInKeys (it : ArrayIterator) : list jsstring :=
  match it with
  | values _ => []
  end.

(** The [type] decoration, with the attribute value as the template literal
    renders it. *)
Definition typeDecoration (v : option jsstring) : jsstring :=
  lit "[type=" ++ dquote
    ++ (match v with Some s => s | None => lit "null" end)
    ++ dquote ++ lit "]".

(* ================================================================== *)
(** ** CSSPathStep: the step of one element *)

Section CSSPathStep.

(** [String.prototype.toLowerCase]. *)
Variable toLowerCase : jsstring -> jsstring.

(** Get an optimized value if there exist one; [null] otherwise. *)
Definition getOptimizedValue (element : Node)
  : result (option DOMNodePathStep) :=
  let id := getAttribute element (lit "id") in
  match id with
  | Some ((_ :: _) as idv) =>
      Ok (Some (mkDOMNodePathStep (Some (idSelector idv)) true))
  | _ =>
      let nodeName := toLowerCase (tagName element) in
      if includes [lit "html"; lit "head"; lit "body"] nodeName
      then Ok (Some (mkDOMNodePathStep (Some nodeName) true))
      else
        match parentNode element with
        | None => Ok (Some (mkDOMNodePathStep (Some nodeName) true))
        | Some parent =>
            if nodeType_eqb (nodeType parent) DOCUMENT_NODE
            then Throw ChildOfDocumentMustBeHtml
            else Ok None
        end
  end.

(** The inner loop of [getWritingMode]: the classes of one sibling are struck
    from [prefixedOwnClassNames]. The result is the array after the loop and
    whether [needsNthChild] was set. *)
Fixpoint eliminateClasses (siblingClassNamesArray : list jsstring)
    (prefixedOwnClassNames : list jsstring) (ownClassNameCount : Z)
  : list jsstring * bool :=
  match siblingClassNamesArray with
  | [] => (prefixedOwnClassNames, false)
  | siblingClass :: rest =>
      if negb (includes prefixedOwnClassNames siblingClass)
      then eliminateClasses rest prefixedOwnClassNames ownClassNameCount
      else
        let spliced :=
          splice1 prefixedOwnClassNames
                  (Z.to_nat (indexOf prefixedOwnClassNames siblingClass)) in
        let count := (ownClassNameCount - 1)%Z in
        if (count =? 0)%Z then (spliced, true)
        else eliminateClasses rest spliced count
  end.

(** The variables of the loop over the siblings. *)
Record ScanState : Type :=
  mkScanState { needsNthChild : bool;
                ownIndex : Z;
                elementIndex : Z;
                prefixedOwnClassNames : list jsstring }.

(** The loop over [siblings], from the sibling at hand on. The first test is
    the loop condition [(ownIndex === -1 || !needsNthChild)]; the end of the
    list is [i < siblings.length] failing. *)
Fixpoint scanSiblings (node : Node) (nodeName : jsstring)
    (siblings : list Node) (st : ScanState) : ScanState :=
  match siblings with
  | [] => st
  | sibling :: rest =>
      if negb ((ownIndex st =? -1)%Z || negb (needsNthChild st)) then st
      else if negb (nodeType_eqb (nodeType sibling) ELEMENT_NODE)
      then scanSiblings node nodeName rest st
      else
        let elementIndex' := (elementIndex st + 1)%Z in
        if sameNode sibling node then
          scanSiblings node nodeName rest
            (mkScanState (needsNthChild st) elementIndex' elementIndex'
                         (prefixedOwnClassNames st))
        else
          let st' := mkScanState (needsNthChild st) (ownIndex st) elementIndex'
                                 (prefixedOwnClassNames st) in
          if needsNthChild st then scanSiblings node nodeName rest st'
          else if negb (str_eqb (toLowerCase (tagName sibling)) nodeName)
          then scanSiblings node nodeName rest st'
          else if Nat.eqb (length (prefixedOwnClassNames st)) 0
          then scanSiblings node nodeName rest
                 (mkScanState true (ownIndex st) elementIndex'
                              (prefixedOwnClassNames st))
          else
            let siblingClassNamesArray := prefixedElementClassNames sibling in
            let ownClassNameCount :=
              Z.of_nat (length (prefixedOwnClassNames st)) in
            let '(own, needs) :=
              eliminateClasses siblingClassNamesArray
                               (prefixedOwnClassNames st) ownClassNameCount in
            scanSiblings node nodeName rest
              (mkScanState needs (ownIndex st) elementIndex' own)
  end.

Record WritingModeResult : Type :=
  mkWritingModeResult { mode : WritingMode;
                        index : Z;
                        ownClassNames : list jsstring }.

Definition getWritingMode (node : Node) : result WritingModeResult :=
  let nodeName := toLowerCase (tagName node) in
  let prefixedOwn := prefixedElementClassNames node in
  match parentNode node with
  | None => Throw TypeErrorNullParent
  | Some parent =>
      let siblings := children parent in
      let st := scanSiblings node nodeName siblings
                  (mkScanState false (-1)%Z (-1)%Z prefixedOwn) in
      Ok (mkWritingModeResult
            (if needsNthChild st then NTH_CHILD else TAGNAME_AND_CLASSNAME)
            (ownIndex st)
            (prefixedOwnClassNames st))
  end.

(** The condition under which [computeStep] adds the [type] decoration. *)
Definition decorates (node : Node) (isTargetNode : bool) (nodeName : jsstring)
  : bool :=
  isTargetNode
  && str_eqb (toLowerCase nodeName) (lit "input")
  && truthy (getAttribute node (lit "type"))
  && negb (truthy (getAttribute node (lit "id")))
  && negb (truthy (getAttribute node (lit "class"))).

Definition computeStep (node : Node) (isTargetNode : bool)
  : result DOMNodePathStep :=
  if negb (nodeType_eqb (nodeType node) ELEMENT_NODE)
  then Throw ElementIsNotOne
  else
    optimizedValue <- getOptimizedValue node ;;
    match optimizedValue with
    | Some step => Ok step
    | None =>
        let nodeName := toLowerCase (tagName node) in
        wm <- getWritingMode node ;;
        let result0 := nodeName in
        let result1 :=
          if decorates node isTargetNode nodeName
          then result0 ++ typeDecoration (getAttribute node (lit "type"))
          else result0 in
        let result2 :=
          match mode wm with
          | NTH_CHILD =>
              result1 ++ lit ":nth-child(" ++ toStringZ (index wm + 1)
                      ++ lit ")"
          | TAGNAME_AND_CLASSNAME =>
              fold_left
                (fun acc prefixedName =>
                   acc ++ lit "."
                       ++ escapeIdentifierIfNeeded (substring1 prefixedName))
                (forInKeys (values (ownClassNames wm)))
                result1
          end in
        Ok (mkDOMNodePathStep (Some result2) false)
    end.

(** [new CSSPathStep(node, isTargetNode)]: the fields, then [init()]. *)
Record CSSPathStep : Type :=
  mkCSSPathStep { stepNode : Node;
                  isTargetNode : bool;
                  value : option jsstring;
                  optimized : bool }.

Definition newCSSPathStep (node : Node) (isTarget : bool)
  : result CSSPathStep :=
  s <- computeStep node isTarget ;;
  Ok (mkCSSPathStep node isTarget (stepValue s) (stepOptimized s)).

Definition isNull (step : CSSPathStep) : bool :=
  match value step with
  | None => true
  | Some _ => false
  end.

(* ================================================================== *)
(** ** CSSSelectorFinder *)

(** [SpecificityArray]: four numbers. *)
Definition SpecificityArray : Type := (Z * Z * Z * Z)%type.

Record CSSSelectorFinder : Type :=
  mkCSSSelectorFinder { finderNode : Node;
                        minSpecificity : SpecificityArray;
                        path : list CSSPathStep }.

(** The [while (contextNode)] loop of [cssPath], entered with a non-null
    [contextNode] given by its subtree [t] and its ancestors [fs]. The loop
    goes on with [contextNode.parentElement], which is the parent [plug f t]
    when that one is an element. The second component counts the iterations
    begun. *)
Fixpoint ascend (thisNode : Node) (t : DomTree) (fs : list Frame)
    (steps : list CSSPathStep) (iterations : nat) {struct fs}
  : result (list CSSPathStep) * nat :=
  let contextNode := mkNode t fs in
  match newCSSPathStep contextNode (sameNode contextNode thisNode) with
  | Throw e => (Throw e, S iterations)
  | Ok step =>
      if isNull step then (Ok steps, S iterations)
      else
        let steps' := steps ++ [step] in
        if optimized step then (Ok steps', S iterations)
        else
          match fs with
          | [] => (Ok steps', S iterations)
          | f :: fs' =>
              if nodeType_eqb (frameType f) ELEMENT_NODE
              then ascend thisNode (plug f t) fs' steps' (S iterations)
              else (Ok steps', S iterations)
          end
  end.

Definition ascendFrom (thisNode contextNode : Node)
    (steps : list CSSPathStep) (iterations : nat)
  : result (list CSSPathStep) * nat :=
  ascend thisNode (self contextNode) (ancestors contextNode) steps iterations.

Definition cssPath (thisNode : Node) : result (list CSSPathStep) :=
  if negb (nodeType_eqb (nodeType thisNode) ELEMENT_NODE) then Ok []
  else
    steps <- fst (ascendFrom thisNode thisNode [] 0) ;;
    Ok (rev steps).

(** The number of iterations of the loop in [cssPath]. *)
Definition cssPathIterations (thisNode : Node) : nat :=
  if negb (nodeType_eqb (nodeType thisNode) ELEMENT_NODE) then 0
  else snd (ascendFrom thisNode thisNode [] 0).

(** [new CSSSelectorFinder(node, minSpecificity)], the second argument being
    optional with the default [[0, 0, 0, 0]]. *)
Definition newCSSSelectorFinder (node : Node)
    (minSpec : option SpecificityArray) : result CSSSelectorFinder :=
  let minSpecificity :=
    match minSpec with
    | Some m => m
    | None => (0, 0, 0, 0)%Z
    end in
  p <- cssPath node ;;
  Ok (mkCSSSelectorFinder node minSpecificity p).

Definition toString (finder : CSSSelectorFinder) : jsstring :=
  join (lit " > ") (map value (path finder)).

End CSSPathStep.

(* ================================================================== *)
(** ** The identifier escaping, as the specification words it *)

(** A bare identifier: an optional [-], then one of [[A-Za-z_]], then any
    number of [[A-Za-z0-9_-]]. *)
Definition bareIdentifier (s : jsstring) : bool :=
  match s with
  | [] => false
  | c :: rest =>
      if isDash c then
        match rest with
        | [] => false
        | c' :: rest' => isIdentStart c' && forallb isIdentClass rest'
        end
      else isIdentStart c && forallb isIdentClass rest
  end.

(** The two lower-case hexadecimal digits of a byte. *)
Definition hexDigit (d : N) : N :=
  if (d <? 10)%N then (cu "0" + d)%N else (cu "a" + (d - 10))%N.

Definition hexByte (c : N) : jsstring :=
  [hexDigit (c / 16); hexDigit (c mod 16)].

(** The string begins with a digit or with [-]. *)
Definition beginsWithDigitOrDash (s : jsstring) : bool :=
  match s with
  | c :: _ => isDigit c || isDash c
  | [] => false
  end.

(** The string begins with a digit, or with [-] followed by a digit or [-]. *)
Definition beginsWithDigitOrDashPair (s : jsstring) : bool :=
  match s with
  | c :: rest =>
      isDigit c
      || (isDash c && match rest with
                      | c' :: _ => isDigitOrDash c'
                      | [] => false
                      end)
  | [] => false
  end.

(** The escape of one code unit: a backslash, the two hexadecimal digits and,
    unless the code unit is the last one, a space. *)
Definition escapedChar (c : N) (isLast : bool) : jsstring :=
  backslash ++ hexByte c ++ (if isLast then [] else lit " ").

(** Every code unit is looked at in turn; [first] tells the first one. It is
    escaped when it is outside [[A-Za-z0-9_-]] and below 0xA0, or when it is
    the first one and [forceFirst] holds. *)
Fixpoint escapeEach (forceFirst first : bool) (s : jsstring) : jsstring :=
  match s with
  | [] => []
  | c :: rest =>
      (if (forceFirst && first) || (negb (isIdentClass c) && (c <? 0xa0)%N)
       then escapedChar c (match rest with [] => true | _ => false end)
       else [c])
        ++ escapeEach forceFirst false rest
  end.

(** The escaping as the specification states it: the first code unit is
    forced when the string begins with a digit, or with [-] followed by a
    digit or [-]. *)
Definition escapeIdentifierAsSpecified (s : jsstring) : jsstring :=
  if bareIdentifier s then s
  else escapeEach (beginsWithDigitOrDashPair s) true s.

(** The same with the first code unit forced when the string begins with a
    digit or with [-]. *)
Definition escapeIdentifierDashForced (s : jsstring) : jsstring :=
  if bareIdentifier s then s
  else escapeEach (beginsWithDigitOrDash s) true s.

Definition noLineTerminator (s : jsstring) : bool :=
  forallb (fun c => negb (isLineTerminator c)) s.

(* ================================================================== *)
(** ** Examples: trees and an ASCII [toLowerCase] *)

(** [toLowerCase] on the letters A to Z; the other code units are kept. It
    agrees with [String.prototype.toLowerCase] on ASCII strings, which is all
    that the examples contain. *)
Definition asciiToLowerCase (s : jsstring) : jsstring :=
  map (fun c => if inRange "A" "Z" c then (c + 32)%N else c) s.

Definition attr (name v : string) : jsstring * jsstring := (lit name, lit v).

Definition element (tag : string) (attrs : list (jsstring * jsstring))
    (kids : list DomTree) : DomTree :=
  mkTree ELEMENT_NODE (lit tag) attrs kids.

Definition text : DomTree := mkTree OTHER_NODE [] [] [].

Definition document (kids : list DomTree) : DomTree :=
  mkTree DOCUMENT_NODE [] [] kids.

(** The node of a tree at a list of child indices (the root when the list
    does not lead to a node). *)
Definition nodeAt (t : DomTree) (p : list nat) : Node :=
  match descend (root t) p with
  | Some n => n
  | None => root t
  end.

(** [<html><body><div><p>A</p><p class="hit">B</p><p>C</p></div></body>
    </html>] *)
Definition threeParagraphs : DomTree :=
  document
    [element "HTML" []
       [element "BODY" []
          [element "DIV" []
             [element "P" [] [text];
              element "P" [attr "class" "hit"] [text];
              element "P" [] [text]]]]].

(** [<html><body><form><input type="text"/><input type="password"/></form>
    </body></html>] *)
Definition twoInputs : DomTree :=
  document
    [element "HTML" []
       [element "BODY" []
          [element "FORM" []
             [element "INPUT" [attr "type" "text"] [];
              element "INPUT" [attr "type" "password"] []]]]].

(** [<html><body><form><input type="text" class=""/></form></body></html>] *)
Definition inputEmptyClass : DomTree :=
  document
    [element "HTML" []
       [element "BODY" []
          [element "FORM" []
             [element "INPUT" [attr "type" "text"; attr "class" ""] []]]]].

(** [<html><body><form><input type=""/></form></body></html>] *)
Definition inputEmptyType : DomTree :=
  document
    [element "HTML" []
       [element "BODY" []
          [element "FORM" [] [element "INPUT" [attr "type" ""] []]]]].

(** [<html><body><form><input type="Text"/><input type="PassWord"/></form>
    </body></html>] *)
Definition mixedCaseInputs : DomTree :=
  document
    [element "HTML" []
       [element "BODY" []
          [element "FORM" []
             [element "INPUT" [attr "type" "Text"] [];
              element "INPUT" [attr "type" "PassWord"] []]]]].

(** An [<input type="text"/>] that is in no document. *)
Definition detachedInput : DomTree :=
  element "INPUT" [attr "type" "text"] [].

(** [<html><body><div id="main"><p>X</p></div></body></html>] *)
Definition mainParagraph : DomTree :=
  document
    [element "HTML" []
       [element "BODY" []
          [element "DIV" [attr "id" "main"] [element "P" [] [text]]]]].

(** [<html><body><div><p class="a b">A</p><p class="b a c">B</p></div></body>
    </html>] *)
Definition sharedClasses : DomTree :=
  document
    [element "HTML" []
       [element "BODY" []
          [element "DIV" []
             [element "P" [attr "class" "a b"] [text];
              element "P" [attr "class" "b a c"] [text]]]]].

(** A document whose only child is [<div id="app"></div>], and one whose only
    child is [<div></div>]. *)
Definition documentOfDivWithId : DomTree :=
  document [element "DIV" [attr "id" "app"] []].

Definition documentOfDiv : DomTree :=
  document [element "DIV" [] []].

(** A [<div><p></p></div>] that is in no document. *)
Definition detachedDiv : DomTree :=
  element "DIV" [] [element "P" [] []].

(** [<html><body>text<span></span>text<p></p><span></span><span></span>
    </body></html>] *)
Definition spans : DomTree :=
  document
    [element "HTML" []
       [element "BODY" []
          [text; element "SPAN" [] []; text; element "P" [] [];
           element "SPAN" [] []; element "SPAN" [] []]]].

(** The selector that the code renders for the node of a tree. *)
Definition selectorOf (t : DomTree) (p : list nat) : result jsstring :=
  mapResult toString (newCSSSelectorFinder asciiToLowerCase (nodeAt t p) None).

(* ================================================================== *)
(** ** What it means for a step to carry the [type] decoration *)

(** The text [[type="v"]] and the text [:nth-child(k)], as the specification
    writes them. *)
Definition typeSelector (v : jsstring) : jsstring :=
  lit "[type=" ++ dquote ++ v ++ dquote ++ lit "]".

Definition nthChildSuffix (k : Z) : jsstring :=
  lit ":nth-child(" ++ toStringZ k ++ lit ")".

(** The step carries the decoration of the element: [node] has a [type]
    attribute of value [v], and the fragment of the step is the lowercased
    tag name [nodeName], then [[type="v"]] with that very value, then nothing
    or one [:nth-child(k)]. *)
Definition carriesTypeDecoration (node : Node) (nodeName : jsstring)
    (step : DOMNodePathStep) : Prop :=
  exists v,
    getAttribute node (lit "type") = Some v
    /\ (stepValue step = Some (nodeName ++ typeSelector v)
        \/ exists k,
             stepValue step
             = Some (nodeName ++ typeSelector v ++ nthChildSuffix k)).

(** The step carries a decoration of some value: the fragment is [nodeName],
    then [[type="v"]] for some [v], then anything. Its negation says that
    the fragment has no decoration at all after the tag name. *)
Definition carriesSomeTypeDecoration (nodeName : jsstring)
    (step : DOMNodePathStep) : Prop :=
  exists v rest,
    stepValue step = Some (nodeName ++ typeSelector v ++ rest).

(* ================================================================== *)
(** ** The chain of steps of an ascent, and the reading of escapes *)

Section AscentChain.

Variable toLowerCase : jsstring -> jsstring.
Variable thisNode : Node.

(** [Ascent cursor pushed]: [pushed] holds, in the order of the pushes, the
    step of [cursor], then the step of its parent element, and so on; every
    step but the last is not optimized, and the last one is optimized or is
    the step of a node without a parent element. *)
Inductive Ascent : Node -> list CSSPathStep -> Prop :=
| Ascent_last : forall cursor step,
    newCSSPathStep toLowerCase cursor (sameNode cursor thisNode) = Ok step ->
    optimized step = true \/ parentElement cursor = None ->
    Ascent cursor [step]
| Ascent_more : forall cursor step parent rest,
    newCSSPathStep toLowerCase cursor (sameNode cursor thisNode) = Ok step ->
    optimized step = false ->
    parentElement cursor = Some parent ->
    Ascent parent rest ->
    Ascent cursor (step :: rest).

End AscentChain.

(** The value of a hexadecimal digit, and the reading of the escapes that
    [escapeAsciiChar] writes: a backslash, two hexadecimal digits and, when
    there is one, the space that follows them stand for one code unit. *)
Definition hexValue (d : N) : N :=
  if isDigit d then (d - cu "0")%N else (d - cu "a" + 10)%N.

Fixpoint unescape (s : jsstring) : jsstring :=
  match s with
  | [] => []
  | c :: rest =>
      if negb (c =? cu "092")%N then c :: unescape rest
      else
        match rest with
        | h1 :: h2 :: rest' =>
            let ch := (16 * hexValue h1 + hexValue h2)%N in
            match rest' with
            | sp :: rest'' =>
                if (sp =? cu " ")%N then ch :: unescape rest''
                else ch :: unescape rest'
            | [] => [ch]
            end
        | _ => c :: unescape rest
        end
  end.

(* ================================================================== *)
(** * Properties *)

(** ** Strings *)

Lemma str_eqb_eq (a b : jsstring) : str_eqb a b = true <-> a = b.
Proof.
  revert b; induction a as [|x a IH]; intros [|y b]; simpl;
    try (split; [discriminate | discriminate]); try tauto.
  rewrite andb_true_iff, N.eqb_eq, IH.
  split; [intros [-> ->]; reflexivity | intros H; inversion H; auto].
Qed.

(** ** The matcher decides the language of a regular expression *)

Lemma lang_cat_inv (r1 r2 : regex) (s : jsstring) :
  lang (Cat r1 r2) s ->
  exists s1 s2, s = s1 ++ s2 /\ lang r1 s1 /\ lang r2 s2.
Proof. intros H. inversion H; subst. eauto. Qed.

Lemma lang_star_inv (r : regex) (c : N) (s : jsstring) :
  lang (Star r) (c :: s) ->
  exists s1 s2, s = s1 ++ s2 /\ lang r (c :: s1) /\ lang (Star r) s2.
Proof. intros H. inversion H; subst. eauto. Qed.

Lemma nullable_lang (r : regex) : nullable r = true <-> lang r [].
Proof.
  induction r as [| |p|r1 IH1 r2 IH2|r1 IH1 r2 IH2|r1 IH1]; simpl.
  - split; [discriminate | intros H; inversion H].
  - split; [constructor | reflexivity].
  - split; [discriminate | intros H; inversion H].
  - rewrite andb_true_iff, IH1, IH2. split.
    + intros [H1 H2]. apply (lang_cat H1 H2).
    + intros H. apply lang_cat_inv in H.
      destruct H as (s1 & s2 & E & H1 & H2).
      symmetry in E. apply app_eq_nil in E. destruct E; subst. auto.
  - rewrite orb_true_iff, IH1, IH2. split.
    + intros [H|H]; [apply lang_alt_l | apply lang_alt_r]; exact H.
    + intros H; inversion H; subst; auto.
  - split; [constructor | reflexivity].
Qed.

Lemma deriv_lang (c : N) (r : regex) :
  forall s, lang (deriv c r) s <-> lang r (c :: s).
Proof.
  induction r as [| |p|r1 IH1 r2 IH2|r1 IH1 r2 IH2|r1 IH1]; simpl; intros s.
  - split; intros H; inversion H.
  - split; intros H; inversion H.
  - destruct (p c) eqn:Hp; split; intros H.
    + inversion H; subst. constructor; exact Hp.
    + inversion H; subst. constructor.
    + inversion H.
    + inversion H; subst. congruence.
  - assert (Hcat : lang (Cat (deriv c r1) r2) s ->
                   lang (Cat r1 r2) (c :: s)).
    { intros H. apply lang_cat_inv in H.
      destruct H as (s1 & s2 & -> & H1 & H2).
      apply IH1 in H1. apply (lang_cat H1 H2). }
    assert (Hinv : lang (Cat r1 r2) (c :: s) ->
                   lang (Cat (deriv c r1) r2) s
                   \/ (lang r1 [] /\ lang (deriv c r2) s)).
    { intros H. apply lang_cat_inv in H.
      destruct H as (s1 & s2 & E & H1 & H2).
      destruct s1 as [|x s1]; simpl in E.
      - subst s2. right. split; [exact H1 | apply IH2, H2].
      - inversion E; subst. left. apply lang_cat; [apply IH1|]; auto. }
    destruct (nullable r1) eqn:Hn; split; intros H.
    + inversion H; subst; [auto|].
      apply (@lang_cat r1 r2 [] (c :: s)).
      * apply nullable_lang; exact Hn.
      * apply IH2; assumption.
    + destruct (Hinv H) as [H'|[_ H']];
        [apply lang_alt_l | apply lang_alt_r]; exact H'.
    + auto.
    + destruct (Hinv H) as [H'|[H' _]]; [exact H'|].
      apply nullable_lang in H'. congruence.
  - split; intros H; inversion H; subst.
    + apply lang_alt_l, IH1; assumption.
    + apply lang_alt_r, IH2; assumption.
    + apply lang_alt_l, IH1; assumption.
    + apply lang_alt_r, IH2; assumption.
  - split; intros H.
    + apply lang_cat_inv in H. destruct H as (s1 & s2 & -> & H1 & H2).
      apply IH1 in H1. apply (lang_star_cons H1 H2).
    + apply lang_star_inv in H. destruct H as (s1 & s2 & -> & H1 & H2).
      apply lang_cat; [apply IH1|]; assumption.
Qed.

Theorem matches_lang (r : regex) (s : jsstring) :
  matches r s = true <-> lang r s.
Proof.
  revert r; induction s as [|c s IH]; intros r; simpl.
  - apply nullable_lang.
  - rewrite IH. apply deriv_lang.
Qed.

(** ** Equations of the matcher *)

Lemma matches_Void (s : jsstring) : matches Void s = false.
Proof. induction s; simpl; auto. Qed.

Lemma matches_Alt (a b : regex) (s : jsstring) :
  matches (Alt a b) s = matches a s || matches b s.
Proof. revert a b; induction s; intros; simpl; auto. Qed.

Lemma matches_Cat_Void (r : regex) (s : jsstring) :
  matches (Cat Void r) s = false.
Proof. induction s; simpl; auto. Qed.

Lemma matches_Cat_Eps (r : regex) (s : jsstring) :
  matches (Cat Eps r) s = matches r s.
Proof.
  destruct s; simpl; [reflexivity|].
  rewrite matches_Alt, matches_Cat_Void. reflexivity.
Qed.

Lemma matches_Cat_Alt (a b r : regex) (s : jsstring) :
  matches (Cat (Alt a b) r) s = matches (Cat a r) s || matches (Cat b r) s.
Proof.
  apply eq_true_iff_eq.
  rewrite orb_true_iff, !matches_lang. split.
  - intros H. apply lang_cat_inv in H. destruct H as (s1 & s2 & -> & H1 & H2).
    inversion H1; subst; [left | right]; apply lang_cat; assumption.
  - intros [H|H]; apply lang_cat_inv in H;
      destruct H as (s1 & s2 & -> & H1 & H2);
      (apply lang_cat; [|assumption]).
    + apply lang_alt_l; assumption.
    + apply lang_alt_r; assumption.
Qed.

Lemma matches_Cat_assoc (a b r : regex) (s : jsstring) :
  matches (Cat (Cat a b) r) s = matches (Cat a (Cat b r)) s.
Proof.
  apply eq_true_iff_eq. rewrite !matches_lang. split; intros H.
  - apply lang_cat_inv in H. destruct H as (s12 & s3 & -> & H12 & H3).
    apply lang_cat_inv in H12. destruct H12 as (s1 & s2 & -> & H1 & H2).
    rewrite <- app_assoc. auto using lang_cat.
  - apply lang_cat_inv in H. destruct H as (s1 & s23 & -> & H1 & H23).
    apply lang_cat_inv in H23. destruct H23 as (s2 & s3 & -> & H2 & H3).
    rewrite app_assoc. auto using lang_cat.
Qed.

Lemma matches_Cat_Class (p : N -> bool) (r : regex) (s : jsstring) :
  matches (Cat (Class p) r) s
  = match s with
    | [] => false
    | c :: s' => p c && matches r s'
    end.
Proof.
  destruct s as [|c s]; simpl; [reflexivity|].
  destruct (p c); [apply matches_Cat_Eps | apply matches_Cat_Void].
Qed.

Lemma matches_Star_Class (p : N -> bool) (s : jsstring) :
  matches (Star (Class p)) s = forallb p s.
Proof.
  induction s as [|c s IH]; simpl; [reflexivity|].
  destruct (p c); simpl.
  - rewrite matches_Cat_Eps. exact IH.
  - apply matches_Cat_Void.
Qed.

Lemma matches_AnyStar (s : jsstring) : matches AnyStar s = true.
Proof.
  unfold AnyStar. rewrite matches_Star_Class.
  induction s; simpl; auto.
Qed.

(** ** The regular expressions of [CSSPathStep] *)

Lemma isDash_not_identStart (c : N) : isDash c = true -> isIdentStart c = false.
Proof.
  unfold isDash. rewrite N.eqb_eq. intros ->. reflexivity.
Qed.

Lemma isCSSIdentifier_bare (s : jsstring) :
  isCSSIdentifier s = bareIdentifier s.
Proof.
  unfold isCSSIdentifier, testWhole, reCSSIdentifier, Opt, Chr.
  rewrite matches_Cat_Alt, matches_Cat_Eps, !matches_Cat_Class.
  destruct s as [|c rest]; [reflexivity|].
  rewrite matches_Cat_Class, !matches_Star_Class.
  unfold bareIdentifier. rewrite (N.eqb_sym (cu "-") c). fold (isDash c).
  destruct (isDash c) eqn:Hd; simpl.
  - rewrite (isDash_not_identStart _ Hd). simpl. rewrite orb_false_r.
    destruct rest; [reflexivity|].
    rewrite matches_Star_Class. reflexivity.
  - reflexivity.
Qed.

Lemma shouldEscapeFirst_begins (s : jsstring) :
  testPrefix reShouldEscapeFirst s = beginsWithDigitOrDash s.
Proof.
  unfold testPrefix, reShouldEscapeFirst, Opt, Chr.
  rewrite matches_Cat_Alt, matches_Cat_assoc, !matches_Cat_Class.
  destruct s as [|c rest]; [reflexivity|].
  rewrite matches_AnyStar, matches_Cat_Alt, matches_Cat_Eps, matches_AnyStar.
  rewrite orb_true_r, !andb_true_r.
  unfold beginsWithDigitOrDash, isDash. rewrite (N.eqb_sym c). reflexivity.
Qed.

Lemma isCSSIdentChar_class (c : N) :
  isCSSIdentChar c = isIdentClass c || (0xa0 <=? c)%N.
Proof.
  unfold isCSSIdentChar, testSearch, reCSSIdentChar.
  cbn [matches deriv nullable orb andb].
  destruct (isIdentClass c); reflexivity.
Qed.

(* ================================================================== *)
(** ** Identifier escaping *)

Lemma toHexByte_table :
  forallb (fun c => str_eqb (toHexByte c) (hexByte c))
          (map N.of_nat (seq 0 256)) = true.
Proof. vm_compute. reflexivity. Qed.

(** [toHexByte] gives the two lower-case hexadecimal digits of a byte. *)
Lemma toHexByte_byte (c : N) : (c < 256)%N -> toHexByte c = hexByte c.
Proof.
  intros Hc. apply str_eqb_eq.
  pose proof toHexByte_table as T. rewrite forallb_forall in T.
  apply T. apply in_map_iff. exists (N.to_nat c). split.
  - apply N2Nat.id.
  - apply in_seq. lia.
Qed.

Lemma escapeAsciiChar_byte (c : N) (isLast : bool) :
  (c < 256)%N -> escapeAsciiChar c isLast = escapedChar c isLast.
Proof.
  intros Hc. unfold escapeAsciiChar, escapedChar.
  rewrite (toHexByte_byte Hc). reflexivity.
Qed.

Lemma digit_or_dash_byte (c : N) :
  isDigit c || isDash c = true -> (c < 256)%N.
Proof.
  unfold isDigit, isDash, inRange, cu. simpl N_of_ascii.
  rewrite orb_true_iff, andb_true_iff, !N.leb_le, N.eqb_eq. lia.
Qed.

Lemma not_identChar_below_a0 (c : N) :
  negb (isCSSIdentChar c) = negb (isIdentClass c) && (c <? 0xa0)%N.
Proof.
  rewrite isCSSIdentChar_class, negb_orb, N.ltb_antisym. reflexivity.
Qed.

(** The [replace] of [escapeIdentifierIfNeeded], from offset [i] on, looks at
    every code unit in turn. *)
Lemma replaceDot_escapeEach (force : bool) (lastIndex : Z) :
  forall (s : jsstring) (i : Z),
    (0 <= i)%Z ->
    lastIndex = (i + Z.of_nat (length s) - 1)%Z ->
    noLineTerminator s = true ->
    (force = true -> i = 0%Z -> beginsWithDigitOrDash s = true) ->
    replaceDotFrom
      (fun c j =>
         if (force && (j =? 0)%Z) || negb (isCSSIdentChar c)
         then escapeAsciiChar c (j =? lastIndex)%Z
         else [c])
      s i
    = escapeEach force (i =? 0)%Z s.
Proof.
  induction s as [|c rest IH]; intros i Hi Hlast Hnl Hforce; [reflexivity|].
  simpl in Hnl. apply andb_true_iff in Hnl. destruct Hnl as [Hc Hrest].
  apply negb_true_iff in Hc.
  cbn [replaceDotFrom escapeEach]. rewrite Hc.
  rewrite (IH (i + 1)%Z); try assumption; try (simpl length in *; lia).
  replace (i + 1 =? 0)%Z with false by (symmetry; apply Z.eqb_neq; lia).
  f_equal.
  rewrite not_identChar_below_a0.
  replace (i =? lastIndex)%Z with (match rest with [] => true | _ => false end).
  - destruct ((force && (i =? 0)%Z)
              || (negb (isIdentClass c) && (c <? 0xa0)%N)) eqn:E;
      [|reflexivity].
    apply escapeAsciiChar_byte.
    apply orb_true_iff in E. destruct E as [E|E].
    + apply andb_true_iff in E. destruct E as [Ef Ei].
      apply Z.eqb_eq in Ei. apply digit_or_dash_byte.
      exact (Hforce Ef Ei).
    + apply andb_true_iff in E. destruct E as [_ E].
      apply N.ltb_lt in E. lia.
  - subst lastIndex. destruct rest as [|c' rest'].
    + simpl. symmetry. apply Z.eqb_eq. lia.
    + symmetry. apply Z.eqb_neq. simpl length. lia.
Qed.

(** C4 (amended). For a string without line terminators: a bare identifier
    is returned unchanged; otherwise every code unit outside [[A-Za-z0-9_-]]
    and below 0xA0 is replaced by a backslash, its two lower-case hexadecimal
    digits and (unless it is the last code unit) a space, the first code unit
    is escaped as well exactly when the string begins with a digit or with
    [-], and the code units at or above 0xA0 are kept. *)
Theorem escapeIdentifierIfNeeded_spec (ident : jsstring) :
  noLineTerminator ident = true ->
  escapeIdentifierIfNeeded ident = escapeIdentifierDashForced ident.
Proof.
  intros Hnl.
  unfold escapeIdentifierIfNeeded, escapeIdentifierDashForced.
  rewrite isCSSIdentifier_bare.
  destruct (bareIdentifier ident); [reflexivity|].
  rewrite shouldEscapeFirst_begins.
  unfold replaceDot.
  rewrite (@replaceDot_escapeEach (beginsWithDigitOrDash ident)
             (Z.of_nat (length ident) - 1) ident 0%Z); auto; lia.
Qed.

Lemma escapeIdentifierIfNeeded_spec_witness :
  noLineTerminator (lit "a.b") = true
  /\ escapeIdentifierIfNeeded (lit "a.b")
     = escapeIdentifierDashForced (lit "a.b").
Proof.
  split; [reflexivity|].
  apply (escapeIdentifierIfNeeded_spec (lit "a.b")). reflexivity.
Defined.

(** C4 as stated fails: [-a b] begins with [-] followed by a letter, and its
    [-] is escaped all the same. *)
Lemma escapeIdentifier_dash_letter_counterexample :
  escapeIdentifierIfNeeded (lit "-a b") = lit "\2d a\20 b"
  /\ escapeIdentifierAsSpecified (lit "-a b") = lit "-a\20 b"
  /\ escapeIdentifierIfNeeded (lit "-a b")
     <> escapeIdentifierAsSpecified (lit "-a b").
Proof.
  split; [reflexivity|]. split; [reflexivity|].
  vm_compute. discriminate.
Qed.

(** Escaping a bare identifier is a no-op, and the examples of the
    specification. *)
Lemma escapeIdentifierIfNeeded_bare (ident : jsstring) :
  bareIdentifier ident = true -> escapeIdentifierIfNeeded ident = ident.
Proof.
  intros H. unfold escapeIdentifierIfNeeded.
  rewrite isCSSIdentifier_bare, H. reflexivity.
Qed.

Example escape_leading_digit :
  escapeIdentifierIfNeeded (lit "1st") = lit "\31 st".
Proof. reflexivity. Qed.

Example escape_dot :
  escapeIdentifierIfNeeded (lit "a.b") = lit "a\2e b".
Proof. reflexivity. Qed.

(** A line terminator is not matched by [.] and is kept as it is. *)
Example escape_line_feed :
  escapeIdentifierIfNeeded [cu "a"; 10%N; cu "b"] = [cu "a"; 10%N; cu "b"].
Proof. reflexivity. Qed.

(* ================================================================== *)
(** ** The tree: a node among the children of its parent *)

Lemma nodeType_eqb_eq (a b : NodeType) : nodeType_eqb a b = true <-> a = b.
Proof. destruct a, b; simpl; split; congruence. Qed.

Lemma position_eqb_eq (p q : list nat) : position_eqb p q = true <-> p = q.
Proof.
  revert q; induction p as [|i p IH]; intros [|j q]; simpl;
    try (split; discriminate); try tauto.
  rewrite andb_true_iff, Nat.eqb_eq, IH.
  split; [intros [-> ->]; reflexivity | intros H; inversion H; auto].
Qed.

Lemma sameNode_refl (n : Node) : sameNode n n = true.
Proof. apply position_eqb_eq; reflexivity. Qed.

(** The index of a node among the child nodes of its parent. *)
Lemma sameNode_index (a b : Node) :
  sameNode a b = true -> hd 0 (position a) = hd 0 (position b).
Proof. unfold sameNode. rewrite position_eqb_eq. intros ->. reflexivity. Qed.

Section ChildNodes.

Variables (ty : NodeType) (tag : jsstring)
          (attrs : list (jsstring * jsstring)) (fs : list Frame).

Lemma childNodesFrom_self (rest pre : list DomTree) :
  map self (childNodesFrom ty tag attrs fs pre rest) = rest.
Proof.
  revert pre; induction rest as [|t rest IH]; intros pre; simpl;
    [reflexivity | rewrite IH; reflexivity].
Qed.

Lemma childNodesFrom_index (rest pre : list DomTree) (n : Node) :
  In n (childNodesFrom ty tag attrs fs pre rest) ->
  length pre <= hd 0 (position n) < length pre + length rest.
Proof.
  revert pre; induction rest as [|t rest IH]; intros pre; simpl; [tauto|].
  intros [<-|Hin].
  - simpl. lia.
  - apply IH in Hin. rewrite length_app in Hin. simpl in Hin. lia.
Qed.

(** The children before a child, the child, and the children after it. *)
Lemma childNodesFrom_split (l1 : list DomTree) :
  forall (pre : list DomTree) (t : DomTree) (l2 : list DomTree),
  exists A B,
    childNodesFrom ty tag attrs fs pre (l1 ++ t :: l2)
    = A ++ mkNode t (mkFrame ty tag attrs (pre ++ l1) l2 :: fs) :: B
    /\ map self A = l1
    /\ (forall n, In n A -> hd 0 (position n) < length (pre ++ l1))
    /\ (forall n, In n B -> length (pre ++ l1) < hd 0 (position n)).
Proof.
  induction l1 as [|x l1 IH]; intros pre t l2.
  - exists [], (childNodesFrom ty tag attrs fs (pre ++ [t]) l2).
    rewrite app_nil_r. simpl. repeat split; [tauto|].
    intros n Hin. apply childNodesFrom_index in Hin.
    rewrite length_app in Hin. simpl in Hin. lia.
  - destruct (IH (pre ++ [x]) t l2) as (A & B & E & HA & HlA & HlB).
    rewrite <- app_assoc in E, HlA, HlB. simpl in E, HlA, HlB.
    exists (mkNode x (mkFrame ty tag attrs pre (l1 ++ t :: l2) :: fs) :: A), B.
    simpl. rewrite E, HA. repeat split; [|exact HlB].
    intros n [<-|Hin]; [|auto].
    simpl. rewrite length_app. simpl. lia.
Qed.

(** The parent of a child is the node whose children were listed. *)
Lemma childNodesFrom_parent (rest pre : list DomTree) (c : Node) :
  In c (childNodesFrom ty tag attrs fs pre rest) ->
  parentNode c = Some (mkNode (mkTree ty tag attrs (pre ++ rest)) fs).
Proof.
  revert pre; induction rest as [|t rest IH]; intros pre; simpl; [tauto|].
  intros [<-|Hin]; [reflexivity|].
  rewrite (IH _ Hin), <- app_assoc. reflexivity.
Qed.

End ChildNodes.

(** The tree is well formed: the parent of a child node of [n] is [n], and a
    node is found from the root of its tree by its position. *)
Lemma parentNode_of_child (n c : Node) :
  In c (childNodes n) -> parentNode c = Some n.
Proof.
  unfold childNodes. intros Hin. apply childNodesFrom_parent in Hin.
  rewrite Hin. destruct n as [[ty tag attrs kids] fs]. reflexivity.
Qed.

Lemma descend_app (n : Node) (p q : list nat) :
  descend n (p ++ q)
  = match descend n p with
    | Some m => descend m q
    | None => None
    end.
Proof.
  revert n; induction p as [|i p IH]; intros n; simpl; [reflexivity|].
  destruct (nth_error (childNodes n) i); [apply IH | reflexivity].
Qed.

Lemma descend_position (fs : list Frame) :
  forall t : DomTree,
    descend (root (rootTreeFrom t fs)) (rev (position (mkNode t fs)))
    = Some (mkNode t fs).
Proof.
  induction fs as [|f fs IH]; intros t; [reflexivity|].
  unfold position in *. simpl in *. rewrite descend_app, IH. simpl.
  unfold childNodes. simpl. destruct f as [fty ftag fattrs bef aft]. simpl.
  destruct (childNodesFrom_split fty ftag fattrs fs bef [] t aft)
    as (A & B & -> & HA & _).
  replace (length bef) with (length A)
    by (rewrite <- HA; symmetry; apply length_map).
  rewrite nth_error_app2, Nat.sub_diag; [reflexivity | lia].
Qed.

Lemma filter_map_self (l : list Node) :
  map self (filter (fun c => nodeType_eqb (nodeType c) ELEMENT_NODE) l)
  = filter isElement (map self l).
Proof.
  induction l as [|n l IH]; simpl; [reflexivity|].
  unfold isElement at 1, nodeType at 1.
  destruct (nodeType_eqb (treeType (self n)) ELEMENT_NODE); simpl;
    rewrite IH; reflexivity.
Qed.

(** The element children of the parent of an element: the elements before
    it, as many as [elementPosition] tells, then the node itself, then the
    elements after it; none of the others is the node. *)
Lemma children_of_parent (node parent : Node) :
  nodeType node = ELEMENT_NODE ->
  parentNode node = Some parent ->
  exists A B,
    children parent = A ++ node :: B
    /\ length A = elementPosition node
    /\ (forall n, In n A ->
          nodeType n = ELEMENT_NODE /\ sameNode n node = false)
    /\ (forall n, In n B -> sameNode n node = false).
Proof.
  destruct node as [t fs]. unfold parentNode, nodeType, elementPosition.
  simpl. intros Ht. destruct fs as [|f fs]; [discriminate|].
  intros E. inversion E; subst parent; clear E.
  unfold children, childNodes. simpl.
  destruct f as [fty ftag fattrs bef aft]. simpl.
  destruct (childNodesFrom_split fty ftag fattrs fs bef [] t aft)
    as (A & B & E & HA & HlA & HlB).
  simpl in E, HlA, HlB. rewrite E, filter_app. simpl.
  unfold nodeType at 2. simpl. rewrite Ht. simpl.
  set (isEl := fun c : Node => nodeType_eqb (nodeType c) ELEMENT_NODE).
  exists (filter isEl A), (filter isEl B). split; [reflexivity|].
  assert (Hneq : forall n : Node,
             hd 0 (position n) <> length bef ->
             sameNode n (mkNode t (mkFrame fty ftag fattrs bef aft :: fs))
             = false).
  { intros n Hn. destruct (sameNode n _) eqn:Es; [|reflexivity].
    apply sameNode_index in Es. simpl in Es. congruence. }
  split; [|split].
  - rewrite <- HA, <- filter_map_self, length_map. reflexivity.
  - intros n Hin. apply filter_In in Hin. destruct Hin as [Hin Hel]. split.
    + apply nodeType_eqb_eq, Hel.
    + apply Hneq. apply HlA in Hin. lia.
  - intros n Hin. apply filter_In in Hin. destruct Hin as [Hin _].
    apply Hneq. apply HlB in Hin. lia.
Qed.

(** The node is the child of its parent that [elementPosition] names. *)
Lemma children_at_elementPosition (node parent : Node) :
  nodeType node = ELEMENT_NODE ->
  parentNode node = Some parent ->
  nth_error (children parent) (elementPosition node) = Some node.
Proof.
  intros Ht Hp.
  destruct (children_of_parent node Ht Hp) as (A & B & -> & <- & _).
  rewrite nth_error_app2, Nat.sub_diag; [reflexivity | lia].
Qed.

(* ================================================================== *)
(** ** The loop over the siblings *)

Section Steps.

Variable toLowerCase : jsstring -> jsstring.

Section Scan.

Variables (node : Node) (nodeName : jsstring).

(** One iteration on a sibling that is an element and is not the node: the
    element is counted and [ownIndex] is left alone. *)
Lemma scan_other (sibling : Node) (rest : list Node) (st : ScanState) :
  nodeType sibling = ELEMENT_NODE ->
  sameNode sibling node = false ->
  ownIndex st = (-1)%Z ->
  exists st',
    scanSiblings toLowerCase node nodeName (sibling :: rest) st
    = scanSiblings toLowerCase node nodeName rest st'
    /\ ownIndex st' = (-1)%Z
    /\ elementIndex st' = (elementIndex st + 1)%Z.
Proof.
  intros Ht Hs Ho. cbn [scanSiblings]. rewrite Ho, Ht, Hs. simpl.
  destruct (needsNthChild st); [eauto|].
  destruct (negb (str_eqb _ nodeName)); [eauto|].
  destruct (Nat.eqb _ 0); [eauto|].
  destruct (eliminateClasses _ _ _) as [own needs]. eauto.
Qed.

(** The siblings before the node: they are counted, and the node is not
    found yet. *)
Lemma scan_before (A rest : list Node) :
  forall st : ScanState,
    (forall n, In n A ->
       nodeType n = ELEMENT_NODE /\ sameNode n node = false) ->
    ownIndex st = (-1)%Z ->
    exists st',
      scanSiblings toLowerCase node nodeName (A ++ rest) st
      = scanSiblings toLowerCase node nodeName rest st'
      /\ ownIndex st' = (-1)%Z
      /\ elementIndex st' = (elementIndex st + Z.of_nat (length A))%Z.
Proof.
  induction A as [|a A IH]; intros st HA Ho.
  - exists st. simpl. repeat split; [assumption | lia].
  - destruct (HA a (or_introl eq_refl)) as [Ht Hs].
    destruct (@scan_other a (A ++ rest) st Ht Hs Ho) as (st1 & E1 & Ho1 & Hi1).
    destruct (IH st1 (fun n Hn => HA n (or_intror Hn)) Ho1)
      as (st2 & E2 & Ho2 & Hi2).
    exists st2. simpl app. rewrite E1, E2. repeat split; [assumption|].
    rewrite Hi2, Hi1. simpl length. lia.
Qed.

(** The siblings after the node, and the iterations that the short-circuit
    leaves out: [ownIndex] does not change any more. *)
Lemma scan_after (B : list Node) :
  forall st : ScanState,
    (forall n, In n B -> sameNode n node = false) ->
    ownIndex (scanSiblings toLowerCase node nodeName B st) = ownIndex st.
Proof.
  induction B as [|b B IH]; intros st HB; [reflexivity|].
  assert (HB' : forall n, In n B -> sameNode n node = false)
    by (intros n Hn; apply HB; right; exact Hn).
  cbn [scanSiblings].
  destruct (negb ((ownIndex st =? -1)%Z || negb (needsNthChild st)));
    [reflexivity|].
  destruct (negb (nodeType_eqb (nodeType b) ELEMENT_NODE)); [auto|].
  rewrite (HB b (or_introl eq_refl)).
  destruct (needsNthChild st); [rewrite IH; auto|].
  destruct (negb (str_eqb _ nodeName)); [rewrite IH; auto|].
  destruct (Nat.eqb _ 0); [rewrite IH; auto|].
  destruct (eliminateClasses _ _ _) as [own needs]. rewrite IH; auto.
Qed.

(** The loop finds the node at its position among the element children. *)
Lemma scan_ownIndex (A B : list Node) (st : ScanState) :
  nodeType node = ELEMENT_NODE ->
  (forall n, In n A -> nodeType n = ELEMENT_NODE /\ sameNode n node = false) ->
  (forall n, In n B -> sameNode n node = false) ->
  ownIndex st = (-1)%Z ->
  elementIndex st = (-1)%Z ->
  ownIndex (scanSiblings toLowerCase node nodeName (A ++ node :: B) st)
  = Z.of_nat (length A).
Proof.
  intros Ht HA HB Ho Hi.
  destruct (@scan_before A (node :: B) st HA Ho) as (st1 & E1 & Ho1 & Hi1).
  rewrite E1. cbn [scanSiblings].
  rewrite Ho1, Ht, sameNode_refl. simpl.
  rewrite scan_after by assumption. simpl. lia.
Qed.

End Scan.

(** [getWritingMode] returns, as [index], the position of the element among
    the element children of its parent. *)
Lemma getWritingMode_index (node : Node) (wm : WritingModeResult) :
  nodeType node = ELEMENT_NODE ->
  getWritingMode toLowerCase node = Ok wm ->
  index wm = Z.of_nat (elementPosition node).
Proof.
  intros Ht. unfold getWritingMode.
  destruct (parentNode node) as [parent|] eqn:Hp; [|discriminate].
  intros E. inversion E; subst wm; clear E. simpl.
  destruct (children_of_parent node Ht Hp) as (A & B & -> & <- & HA & HB).
  apply scan_ownIndex; auto.
Qed.

(** The steps that [getOptimizedValue] gives are optimized. *)
Lemma getOptimizedValue_optimized (node : Node) (step : DOMNodePathStep) :
  getOptimizedValue toLowerCase node = Ok (Some step) ->
  stepOptimized step = true.
Proof.
  unfold getOptimizedValue.
  destruct (getAttribute node (lit "id")) as [[|c id]|].
  2: { intros E; inversion E; reflexivity. }
  all: destruct (includes _ _);
    [intros E; inversion E; reflexivity|];
    destruct (parentNode node) as [parent|];
    [destruct (nodeType_eqb (nodeType parent) DOCUMENT_NODE); discriminate
    | intros E; inversion E; reflexivity].
Qed.

(** The shape of a step that is not optimized. *)
Lemma computeStep_structural (node : Node) (isTarget : bool)
    (step : DOMNodePathStep) :
  computeStep toLowerCase node isTarget = Ok step ->
  stepOptimized step = false ->
  nodeType node = ELEMENT_NODE
  /\ getOptimizedValue toLowerCase node = Ok None
  /\ exists wm,
       getWritingMode toLowerCase node = Ok wm
       /\ stepValue step
          = Some
              ((toLowerCase (tagName node)
                  ++ (if decorates toLowerCase node isTarget
                           (toLowerCase (tagName node))
                      then typeDecoration (getAttribute node (lit "type"))
                      else []))
                 ++ match mode wm with
                    | NTH_CHILD =>
                        lit ":nth-child(" ++ toStringZ (index wm + 1)
                            ++ lit ")"
                    | TAGNAME_AND_CLASSNAME => []
                    end).
Proof.
  unfold computeStep. intros E Hopt.
  destruct (nodeType_eqb (nodeType node) ELEMENT_NODE) eqn:Ht;
    [|discriminate].
  apply nodeType_eqb_eq in Ht. simpl in E.
  destruct (getOptimizedValue toLowerCase node) as [[s|]|e] eqn:Eo;
    simpl in E; [|clear Hopt|discriminate].
  - inversion E; subst s.
    apply getOptimizedValue_optimized in Eo. congruence.
  - destruct (getWritingMode toLowerCase node) as [wm|e] eqn:Ew;
      simpl in E; [|discriminate].
    repeat split; [assumption|]. exists wm. split; [reflexivity|].
    inversion E; subst step; clear E. simpl. f_equal.
    destruct (mode wm); simpl.
    + destruct (decorates _ _ _ _); rewrite <- ?app_assoc; reflexivity.
    + destruct (decorates _ _ _ _); rewrite ?app_nil_r; reflexivity.
Qed.

(** C3. A step in NTH_CHILD mode ends with [:nth-child(k)], [k] being the
    zero-based position of the element among the element children of its
    parent, plus 1; the short-circuit of the loop makes no exception. *)
Theorem nth_child_is_element_position (node : Node) (isTarget : bool)
    (step : DOMNodePathStep) (wm : WritingModeResult) :
  computeStep toLowerCase node isTarget = Ok step ->
  stepOptimized step = false ->
  getWritingMode toLowerCase node = Ok wm ->
  mode wm = NTH_CHILD ->
  index wm = Z.of_nat (elementPosition node)
  /\ stepValue step
     = Some
         ((toLowerCase (tagName node)
             ++ (if decorates toLowerCase node isTarget
                      (toLowerCase (tagName node))
                 then typeDecoration (getAttribute node (lit "type"))
                 else []))
            ++ lit ":nth-child("
            ++ toStringZ (Z.of_nat (elementPosition node) + 1)
            ++ lit ")").
Proof.
  intros E Hopt Ew Hm.
  destruct (computeStep_structural node isTarget E Hopt)
    as (Ht & _ & wm' & Ew' & Ev).
  rewrite Ew in Ew'. inversion Ew'; subst wm'; clear Ew'.
  pose proof (getWritingMode_index node Ht Ew) as Hi.
  split; [exact Hi|].
  rewrite Ev, Hm, Hi. reflexivity.
Qed.

End Steps.

(** The third [span] of [spans]: the loop stops at the node, before the last
    [span] is looked at. *)
Lemma nth_child_is_element_position_witness :
  let node := nodeAt spans [0; 0; 4] in
  let step := mkDOMNodePathStep (Some (lit "span:nth-child(3)")) false in
  let wm := mkWritingModeResult NTH_CHILD 2 [] in
  computeStep asciiToLowerCase node true = Ok step
  /\ stepOptimized step = false
  /\ getWritingMode asciiToLowerCase node = Ok wm
  /\ mode wm = NTH_CHILD
  /\ index wm = Z.of_nat (elementPosition node)
  /\ stepValue step
     = Some
         ((asciiToLowerCase (tagName node)
             ++ (if decorates asciiToLowerCase node true
                      (asciiToLowerCase (tagName node))
                 then typeDecoration (getAttribute node (lit "type"))
                 else []))
            ++ lit ":nth-child("
            ++ toStringZ (Z.of_nat (elementPosition node) + 1)
            ++ lit ")").
Proof.
  intros node step wm.
  split; [reflexivity|]. split; [reflexivity|].
  split; [reflexivity|]. split; [reflexivity|].
  apply (@nth_child_is_element_position asciiToLowerCase node true step wm);
    reflexivity.
Defined.

(* ================================================================== *)
(** ** The optimized shortcut and the parent of the element *)

Section Shortcut.

Variable toLowerCase : jsstring -> jsstring.

(** [getOptimizedValue] returns [null] only for a node that has a parent
    which is not a document. *)
Lemma getOptimizedValue_null (node : Node) :
  getOptimizedValue toLowerCase node = Ok None ->
  exists parent,
    parentNode node = Some parent /\ nodeType parent <> DOCUMENT_NODE.
Proof.
  unfold getOptimizedValue.
  destruct (getAttribute node (lit "id")) as [[|c id]|]; [|discriminate|].
  all: destruct (includes _ _); [discriminate|];
    destruct (parentNode node) as [parent|]; [|discriminate];
    destruct (nodeType_eqb (nodeType parent) DOCUMENT_NODE) eqn:Ed;
    [discriminate|];
    intros _; exists parent; split; [reflexivity|];
    intros Hd; rewrite Hd in Ed; discriminate.
Qed.

(** C10. When [computeStep] comes to [getWritingMode], that is when
    [getOptimizedValue] has returned [null], the parent of the node is not
    null and is not a document, and [getWritingMode] returns; so [computeStep]
    never fails on reading the children of a null parent. *)
Theorem getWritingMode_parent_not_null (node : Node) (isTarget : bool) :
  (getOptimizedValue toLowerCase node = Ok None ->
   exists parent,
     parentNode node = Some parent
     /\ nodeType parent <> DOCUMENT_NODE
     /\ exists wm, getWritingMode toLowerCase node = Ok wm)
  /\ computeStep toLowerCase node isTarget <> Throw TypeErrorNullParent.
Proof.
  assert (H : getOptimizedValue toLowerCase node = Ok None ->
              exists parent,
                parentNode node = Some parent
                /\ nodeType parent <> DOCUMENT_NODE
                /\ exists wm, getWritingMode toLowerCase node = Ok wm).
  { intros Eo. destruct (getOptimizedValue_null node Eo) as (parent & Hp & Hd).
    exists parent. repeat split; try assumption.
    unfold getWritingMode. rewrite Hp. eauto. }
  split; [exact H|].
  unfold computeStep.
  destruct (negb (nodeType_eqb (nodeType node) ELEMENT_NODE)); [discriminate|].
  destruct (getOptimizedValue toLowerCase node) as [[s|]|e] eqn:Eo; simpl.
  - discriminate.
  - destruct (H eq_refl) as (parent & _ & _ & wm & ->). simpl. discriminate.
  - revert Eo. unfold getOptimizedValue.
    destruct (getAttribute node (lit "id")) as [[|c id]|]; [|discriminate|].
    all: destruct (includes _ _); [discriminate|];
      destruct (parentNode node) as [parent|]; [|discriminate];
      destruct (nodeType_eqb (nodeType parent) DOCUMENT_NODE);
      [|discriminate]; intros E; inversion E; discriminate.
Qed.

(** C2 (amended). An element whose parent is the document, whose [id] is
    absent or empty and whose lowercased tag is none of [html], [head] and
    [body] gets no step: [CSSPathStep] throws the error of the child of a
    document. *)
Theorem child_of_document_throws (node parent : Node) (isTarget : bool) :
  nodeType node = ELEMENT_NODE ->
  parentNode node = Some parent ->
  nodeType parent = DOCUMENT_NODE ->
  truthy (getAttribute node (lit "id")) = false ->
  includes [lit "html"; lit "head"; lit "body"] (toLowerCase (tagName node))
  = false ->
  computeStep toLowerCase node isTarget = Throw ChildOfDocumentMustBeHtml
  /\ newCSSPathStep toLowerCase node isTarget
     = Throw ChildOfDocumentMustBeHtml.
Proof.
  intros Ht Hp Hd Hid Htag.
  assert (E : computeStep toLowerCase node isTarget
              = Throw ChildOfDocumentMustBeHtml).
  { assert (Eo : getOptimizedValue toLowerCase node
                   = Throw ChildOfDocumentMustBeHtml).
    { unfold getOptimizedValue.
      destruct (getAttribute node (lit "id")) as [[|c id]|];
        [|discriminate|]; rewrite Htag, Hp, Hd; reflexivity. }
    unfold computeStep. rewrite Ht, Eo. reflexivity. }
  split; [exact E|]. unfold newCSSPathStep. rewrite E. reflexivity.
Qed.

End Shortcut.

Lemma getWritingMode_parent_not_null_witness :
  let node := nodeAt threeParagraphs [0; 0; 0; 1] in
  getOptimizedValue asciiToLowerCase node = Ok None
  /\ exists parent,
       parentNode node = Some parent
       /\ nodeType parent <> DOCUMENT_NODE
       /\ exists wm, getWritingMode asciiToLowerCase node = Ok wm.
Proof.
  intros node. split; [reflexivity|].
  apply (getWritingMode_parent_not_null asciiToLowerCase node true).
  reflexivity.
Defined.

Lemma child_of_document_throws_witness :
  let node := nodeAt documentOfDiv [0] in
  let parent := root documentOfDiv in
  nodeType node = ELEMENT_NODE
  /\ parentNode node = Some parent
  /\ nodeType parent = DOCUMENT_NODE
  /\ truthy (getAttribute node (lit "id")) = false
  /\ includes [lit "html"; lit "head"; lit "body"]
              (asciiToLowerCase (tagName node)) = false
  /\ computeStep asciiToLowerCase node true = Throw ChildOfDocumentMustBeHtml
  /\ newCSSPathStep asciiToLowerCase node true
     = Throw ChildOfDocumentMustBeHtml.
Proof.
  intros node parent.
  split; [reflexivity|]. split; [reflexivity|]. split; [reflexivity|].
  split; [reflexivity|]. split; [reflexivity|].
  apply (@child_of_document_throws asciiToLowerCase node parent true);
    reflexivity.
Defined.

(** C2 as stated fails: [<div id="app">] is a child of the document and its
    tag is not [html], and it gets the step [#app]. *)
Lemma child_of_document_with_id_counterexample :
  let node := nodeAt documentOfDivWithId [0] in
  nodeType node = ELEMENT_NODE
  /\ (exists parent,
        parentNode node = Some parent /\ nodeType parent = DOCUMENT_NODE)
  /\ asciiToLowerCase (tagName node) <> lit "html"
  /\ computeStep asciiToLowerCase node true
     = Ok (mkDOMNodePathStep (Some (lit "#app")) true)
  /\ newCSSPathStep asciiToLowerCase node true
     <> Throw ChildOfDocumentMustBeHtml.
Proof.
  intros node. split; [reflexivity|].
  split; [exists (root documentOfDivWithId); split; reflexivity|].
  split; [vm_compute; discriminate|].
  split; [reflexivity|]. vm_compute. discriminate.
Qed.

(* ================================================================== *)
(** ** The classes in TAGNAME_AND_CLASSNAME mode *)

(** In TAGNAME_AND_CLASSNAME mode the fragment is the lowercased tag and, for
    the target, the [type] decoration; the classes that [getWritingMode]
    returns are not written. *)
Lemma tagname_mode_fragment (toLowerCase : jsstring -> jsstring)
    (node : Node) (isTarget : bool) (step : DOMNodePathStep)
    (wm : WritingModeResult) :
  computeStep toLowerCase node isTarget = Ok step ->
  stepOptimized step = false ->
  getWritingMode toLowerCase node = Ok wm ->
  mode wm = TAGNAME_AND_CLASSNAME ->
  stepValue step
  = Some (toLowerCase (tagName node)
            ++ (if decorates toLowerCase node isTarget
                     (toLowerCase (tagName node))
                then typeDecoration (getAttribute node (lit "type"))
                else [])).
Proof.
  intros E Hopt Ew Hm.
  destruct (@computeStep_structural toLowerCase node isTarget step E Hopt)
    as (_ & _ & wm' & Ew' & Ev).
  rewrite Ew in Ew'. inversion Ew'; subst wm'.
  rewrite Ev, Hm, app_nil_r. reflexivity.
Qed.

(** C1 fails on the code. The second [<p>] of [threeParagraphs] comes to
    TAGNAME_AND_CLASSNAME mode with its class [hit] left, and its step is [p],
    not [p.hit]: the loop over the classes runs over the property names of an
    iterator, of which there are none. *)
Theorem class_suffix_missing :
  let node := nodeAt threeParagraphs [0; 0; 0; 1] in
  getWritingMode asciiToLowerCase node
  = Ok (mkWritingModeResult TAGNAME_AND_CLASSNAME 1 [lit "$hit"])
  /\ computeStep asciiToLowerCase node true
     = Ok (mkDOMNodePathStep (Some (lit "p")) false)
  /\ mapResult toString (newCSSSelectorFinder asciiToLowerCase node None)
     = Ok (lit "body > div > p").
Proof.
  intros node. repeat split; reflexivity.
Qed.

(* ================================================================== *)
(** ** The ascent *)

Section Ascent.

Variable toLowerCase : jsstring -> jsstring.

(** One iteration of the loop of [cssPath]: the step of [contextNode] is
    built; the loop breaks on a null value or on an optimized step, and goes
    on with [contextNode.parentElement] otherwise, until that is null. *)
Lemma ascendFrom_eq (thisNode contextNode : Node)
    (steps : list CSSPathStep) (k : nat) :
  ascendFrom toLowerCase thisNode contextNode steps k
  = match newCSSPathStep toLowerCase contextNode
            (sameNode contextNode thisNode) with
    | Throw e => (Throw e, S k)
    | Ok step =>
        if isNull step then (Ok steps, S k)
        else if optimized step then (Ok (steps ++ [step]), S k)
        else
          match parentElement contextNode with
          | None => (Ok (steps ++ [step]), S k)
          | Some p => ascendFrom toLowerCase thisNode p (steps ++ [step]) (S k)
          end
    end.
Proof.
  destruct contextNode as [t [|f fs]]; unfold ascendFrom; simpl.
  - destruct (newCSSPathStep _ _ _) as [step|e]; [|reflexivity].
    destruct (isNull step), (optimized step); reflexivity.
  - destruct (newCSSPathStep _ _ _) as [step|e]; [|reflexivity].
    destruct (isNull step), (optimized step); try reflexivity.
    unfold parentElement, parentNode, nodeType. simpl.
    destruct (nodeType_eqb (frameType f) ELEMENT_NODE); reflexivity.
Qed.

Lemma Forall_removelast (A : Type) (P : A -> Prop) (l : list A) :
  Forall P l -> Forall P (removelast l).
Proof.
  induction 1 as [|x l Hx Hl IH]; simpl; [constructor|].
  destruct l; [constructor | constructor; assumption].
Qed.

(** All the steps that the loop collects, the last one apart, are not
    optimized. *)
Lemma ascend_optimized_last (thisNode : Node) (fs : list Frame) :
  forall (t : DomTree) (steps : list CSSPathStep) (k : nat)
         (out : list CSSPathStep),
    fst (ascend toLowerCase thisNode t fs steps k) = Ok out ->
    Forall (fun s => optimized s = false) steps ->
    Forall (fun s => optimized s = false) (removelast out).
Proof.
  assert (Hpush : forall steps step out,
             Ok (steps ++ [step]) = Ok out ->
             Forall (fun s => optimized s = false) steps ->
             Forall (fun s => optimized s = false) (removelast out)).
  { intros steps step out E Hs. inversion E; subst out.
    rewrite removelast_last. exact Hs. }
  induction fs as [|f fs IH]; intros t steps k out E Hs; simpl in E;
    (destruct (newCSSPathStep _ _ _) as [step|e]; [|discriminate]);
    (destruct (isNull step);
     [simpl in E; inversion E; subst out; apply Forall_removelast; exact Hs|]);
    (destruct (optimized step) eqn:Eopt; [apply (Hpush _ _ _ E Hs)|]).
  - apply (Hpush _ _ _ E Hs).
  - destruct (nodeType_eqb (frameType f) ELEMENT_NODE).
    + apply (IH _ _ _ _ E).
      apply Forall_app. split; [exact Hs|].
      constructor; [exact Eopt | constructor].
    + apply (Hpush _ _ _ E Hs).
Qed.

(** C5. In a path that [cssPath] returns, an optimized step is the first
    one, the root-most; no other step of the path is optimized. *)
Theorem optimized_step_is_root_most (thisNode : Node)
    (steps : list CSSPathStep) (i : nat) (step : CSSPathStep) :
  cssPath toLowerCase thisNode = Ok steps ->
  nth_error steps i = Some step ->
  optimized step = true ->
  i = 0.
Proof.
  unfold cssPath, ascendFrom.
  destruct (negb (nodeType_eqb (nodeType thisNode) ELEMENT_NODE)).
  - intros E; inversion E; subst steps. destruct i; discriminate.
  - destruct (fst (ascend _ _ _ _ _ _)) as [out|e] eqn:Ea; [|discriminate].
    simpl. intros E Hn Hopt; inversion E; subst steps; clear E.
    apply ascend_optimized_last in Ea; [|constructor].
    destruct (exists_last (l := out)) as (init & last & ->).
    { intros ->. destruct i; discriminate. }
    rewrite removelast_last in Ea. rewrite rev_app_distr in Hn. simpl in Hn.
    destruct i as [|i]; [reflexivity|]. simpl in Hn.
    apply nth_error_In, in_rev in Hn.
    rewrite Forall_forall in Ea. rewrite (Ea _ Hn) in Hopt. discriminate.
Qed.

(** The loop on an element does at most one iteration per node from the
    element up to the root of its tree, and one less when that root is not an
    element. *)
Lemma ascend_iterations (thisNode : Node) (fs : list Frame) :
  forall (t : DomTree) (steps : list CSSPathStep) (k : nat),
    snd (ascend toLowerCase thisNode t fs steps k) <= k + S (length fs).
Proof.
  induction fs as [|f fs IH]; intros t steps k; simpl;
    destruct (newCSSPathStep _ _ _) as [step|e]; simpl; try lia;
    destruct (isNull step); simpl; try lia;
    destruct (optimized step); simpl; try lia.
  destruct (nodeType_eqb (frameType f) ELEMENT_NODE); simpl; [|lia].
  specialize (IH (plug f t) (steps ++ [step]) (S k)). lia.
Qed.

Lemma ascend_iterations_below_root (thisNode : Node) (fs : list Frame) :
  forall (t : DomTree) (steps : list CSSPathStep) (k : nat),
    isElement t = true ->
    isElement (rootTreeFrom t fs) = false ->
    snd (ascend toLowerCase thisNode t fs steps k) <= k + length fs.
Proof.
  induction fs as [|f fs IH]; intros t steps k Ht Hroot.
  - simpl in Hroot. congruence.
  - simpl.
    destruct (newCSSPathStep _ _ _) as [step|e]; simpl; try lia.
    destruct (isNull step); simpl; try lia.
    destruct (optimized step); simpl; try lia.
    destruct (nodeType_eqb (frameType f) ELEMENT_NODE) eqn:Ef; simpl; [|lia].
    specialize (IH (plug f t) (steps ++ [step]) (S k) Ef Hroot). lia.
Qed.

(** C9 (amended). The loop of [cssPath] ends after at most [depth + 1]
    iterations, [depth] being the number of proper ancestors of the target;
    after at most [depth] iterations when the root of the tree of the target
    is not an element. *)
Theorem cssPath_iterations_bound (thisNode : Node) :
  cssPathIterations toLowerCase thisNode <= depth thisNode + 1
  /\ (isElement (rootTree thisNode) = false ->
      cssPathIterations toLowerCase thisNode <= depth thisNode).
Proof.
  unfold cssPathIterations, ascendFrom, depth, rootTree.
  destruct (nodeType_eqb (nodeType thisNode) ELEMENT_NODE) eqn:Ht; simpl.
  - split.
    + pose proof (ascend_iterations thisNode (ancestors thisNode)
                    (self thisNode) [] 0). lia.
    + intros Hroot.
      apply (ascend_iterations_below_root thisNode (ancestors thisNode)
               (self thisNode) [] 0 Ht Hroot).
  - split; intros; lia.
Qed.

(** C7. For a node that is not an element the constructor returns a finder
    with the empty path, which is rendered as the empty string; nothing is
    thrown. *)
Theorem non_element_target_empty_path (node : Node)
    (minSpec : option SpecificityArray) :
  nodeType_eqb (nodeType node) ELEMENT_NODE = false ->
  exists finder,
    newCSSSelectorFinder toLowerCase node minSpec = Ok finder
    /\ path finder = []
    /\ toString finder = [].
Proof.
  intros Ht. unfold newCSSSelectorFinder, cssPath. rewrite Ht. simpl.
  eexists. repeat split.
Qed.

(** C8. The path and the rendered selector (or the error thrown) are the
    same whatever the minimum specificity given, or left out. *)
Theorem minSpecificity_no_influence (node : Node)
    (minSpec1 minSpec2 : option SpecificityArray) :
  mapResult path (newCSSSelectorFinder toLowerCase node minSpec1)
  = mapResult path (newCSSSelectorFinder toLowerCase node minSpec2)
  /\ mapResult toString (newCSSSelectorFinder toLowerCase node minSpec1)
     = mapResult toString (newCSSSelectorFinder toLowerCase node minSpec2).
Proof.
  unfold newCSSSelectorFinder.
  destruct (cssPath toLowerCase node) as [p|e]; split; reflexivity.
Qed.

End Ascent.

Lemma optimized_step_is_root_most_witness :
  let thisNode := nodeAt threeParagraphs [0; 0; 0; 2] in
  let body := nodeAt threeParagraphs [0; 0] in
  let div := nodeAt threeParagraphs [0; 0; 0] in
  let steps :=
    [mkCSSPathStep body false (Some (lit "body")) true;
     mkCSSPathStep div false (Some (lit "div")) false;
     mkCSSPathStep thisNode true (Some (lit "p:nth-child(3)")) false] in
  cssPath asciiToLowerCase thisNode = Ok steps
  /\ nth_error steps 0
     = Some (mkCSSPathStep body false (Some (lit "body")) true)
  /\ optimized (mkCSSPathStep body false (Some (lit "body")) true) = true
  /\ 0 = 0.
Proof.
  intros thisNode body div steps.
  split; [reflexivity|]. split; [reflexivity|]. split; [reflexivity|].
  apply (@optimized_step_is_root_most asciiToLowerCase thisNode steps 0
           (mkCSSPathStep body false (Some (lit "body")) true));
    reflexivity.
Defined.

Lemma cssPath_iterations_bound_witness :
  let thisNode := nodeAt threeParagraphs [0; 0; 0; 2] in
  isElement (rootTree thisNode) = false
  /\ cssPathIterations asciiToLowerCase thisNode <= depth thisNode.
Proof.
  intros thisNode. split; [reflexivity|].
  apply (cssPath_iterations_bound asciiToLowerCase thisNode). reflexivity.
Defined.

(** C9 as stated fails: the [<div>] of [detachedDiv] has no ancestor, and the
    loop does one iteration on it. *)
Lemma cssPath_iterations_detached_counterexample :
  let thisNode := root detachedDiv in
  depth thisNode = 0
  /\ cssPathIterations asciiToLowerCase thisNode = 1
  /\ ~ cssPathIterations asciiToLowerCase thisNode <= depth thisNode.
Proof.
  intros thisNode. split; [reflexivity|]. split; [reflexivity|].
  vm_compute. lia.
Qed.

Lemma non_element_target_empty_path_witness :
  let node := nodeAt threeParagraphs [0; 0; 0; 1; 0] in
  nodeType_eqb (nodeType node) ELEMENT_NODE = false
  /\ exists finder,
       newCSSSelectorFinder asciiToLowerCase node None = Ok finder
       /\ path finder = []
       /\ toString finder = [].
Proof.
  intros node. split; [reflexivity|].
  apply (non_element_target_empty_path asciiToLowerCase node None).
  reflexivity.
Defined.

(* ================================================================== *)
(** ** The [type] decoration *)

Lemma hex_string_no_bracket (d : Hexadecimal.uint) :
  ~ In bracket (lit (HexadecimalString.NilEmpty.string_of_uint d)).
Proof.
  induction d; simpl; [tauto|..]; intros [H|H]; try discriminate H; auto.
Qed.

Lemma toHexByte_no_bracket (c : N) : ~ In bracket (toHexByte c).
Proof.
  assert (H : ~ In bracket (toString16 c)).
  { unfold toString16, HexadecimalString.NilZero.string_of_uint.
    destruct (N.to_hex_uint c) eqn:E;
      try (rewrite <- E; apply hex_string_no_bracket).
    simpl. intros [H|[]]; discriminate H. }
  unfold toHexByte. destruct (Nat.eqb _ 1); [|exact H].
  simpl. intros [H'|H']; [discriminate H' | auto].
Qed.

Lemma escapeAsciiChar_no_bracket (c : N) (isLast : bool) :
  ~ In bracket (escapeAsciiChar c isLast).
Proof.
  unfold escapeAsciiChar. simpl. intros [H|H]; [discriminate H|].
  apply in_app_or in H. destruct H as [H|H].
  - exact (toHexByte_no_bracket c H).
  - destruct isLast; simpl in H; [tauto|].
    destruct H as [H|[]]; discriminate H.
Qed.

Lemma bareIdentifier_class (s : jsstring) :
  bareIdentifier s = true -> forallb isIdentClass s = true.
Proof.
  assert (Hstart : forall c, isIdentStart c = true -> isIdentClass c = true).
  { intros c. unfold isIdentStart, isIdentClass.
    rewrite !orb_true_iff. tauto. }
  assert (Hdash : forall c, isDash c = true -> isIdentClass c = true).
  { intros c. unfold isDash, isIdentClass. intros ->.
    rewrite !orb_true_r. reflexivity. }
  destruct s as [|c rest]; simpl; [discriminate|].
  destruct (isDash c) eqn:Hd.
  - rewrite (Hdash _ Hd). destruct rest as [|c' rest]; [discriminate|].
    simpl. rewrite andb_true_iff. intros [H1 H2].
    rewrite (Hstart _ H1). exact H2.
  - rewrite andb_true_iff. intros [H1 H2]. rewrite (Hstart _ H1). exact H2.
Qed.

Lemma replaceDotFrom_no_bracket (f : N -> Z -> jsstring) :
  (forall c i, ~ In bracket (f c i)) ->
  forall (s : jsstring) (i : Z), ~ In bracket (replaceDotFrom f s i).
Proof.
  intros Hf. induction s as [|c rest IH]; intros i; simpl; [tauto|].
  intros H. apply in_app_or in H. destruct H as [H|H]; [|exact (IH _ H)].
  destruct (isLineTerminator c) eqn:El; [|exact (Hf _ _ H)].
  destruct H as [H|[]]. subst c. discriminate El.
Qed.

(** The escaped identifier holds no [[]. *)
Lemma escapeIdentifierIfNeeded_no_bracket (ident : jsstring) :
  ~ In bracket (escapeIdentifierIfNeeded ident).
Proof.
  unfold escapeIdentifierIfNeeded. rewrite isCSSIdentifier_bare.
  destruct (bareIdentifier ident) eqn:Eb.
  - intros H. apply bareIdentifier_class in Eb.
    rewrite forallb_forall in Eb. apply Eb in H. discriminate H.
  - apply replaceDotFrom_no_bracket. intros c i.
    destruct (_ || negb (isCSSIdentChar c)) eqn:Ec.
    + apply escapeAsciiChar_no_bracket.
    + intros [H|[]]. subst c.
      apply orb_false_iff in Ec. destruct Ec as [_ Ec]. discriminate Ec.
Qed.

Section Decoration.

Variable toLowerCase : jsstring -> jsstring.

(** The step of an optimized shortcut: the id selector or the bare tag. *)
Lemma getOptimizedValue_value (node : Node) (step : DOMNodePathStep) :
  getOptimizedValue toLowerCase node = Ok (Some step) ->
  (exists id, stepValue step = Some (idSelector id))
  \/ stepValue step = Some (toLowerCase (tagName node)).
Proof.
  unfold getOptimizedValue.
  destruct (getAttribute node (lit "id")) as [[|c id]|].
  2: { intros E; inversion E. left. eexists. reflexivity. }
  all: destruct (includes _ _);
    [intros E; inversion E; right; reflexivity|];
    destruct (parentNode node) as [parent|];
    [destruct (nodeType_eqb (nodeType parent) DOCUMENT_NODE); discriminate
    | intros E; inversion E; right; reflexivity].
Qed.

(** An optimized step carries no decoration. *)
Lemma optimized_step_not_decorated (node : Node) (isTarget : bool)
    (step : DOMNodePathStep) :
  computeStep toLowerCase node isTarget = Ok step ->
  stepOptimized step = true ->
  ~ carriesSomeTypeDecoration (toLowerCase (tagName node)) step.
Proof.
  unfold computeStep. intros E Hopt (v & rest & Hv).
  destruct (negb (nodeType_eqb (nodeType node) ELEMENT_NODE));
    [discriminate|].
  destruct (getOptimizedValue toLowerCase node) as [[s|]|e] eqn:Eo;
    simpl in E; [| |discriminate].
  - inversion E; subst s; clear E.
    destruct (getOptimizedValue_value node Eo) as [(id & Hid)|Htag].
    + rewrite Hid in Hv. inversion Hv as [Hv'].
      assert (Hin : In bracket (idSelector id)).
      { rewrite Hv'. apply in_or_app. right. left. reflexivity. }
      destruct Hin as [Hin|Hin]; [discriminate Hin|].
      exact (escapeIdentifierIfNeeded_no_bracket _ Hin).
    + rewrite Htag in Hv. inversion Hv as [Hv'].
      apply (f_equal (@length N)) in Hv'.
      rewrite !length_app in Hv'. simpl in Hv'. lia.
  - destruct (getWritingMode toLowerCase node) as [wm|e]; simpl in E;
      [|discriminate].
    inversion E; subst step. discriminate Hopt.
Qed.

(** The decoration on a step, in terms of the attributes as the code tests
    them. *)
Lemma decorated_iff (node : Node) (isTarget : bool) (step : DOMNodePathStep) :
  (forall s, toLowerCase (toLowerCase s) = toLowerCase s) ->
  computeStep toLowerCase node isTarget = Ok step ->
  (carriesSomeTypeDecoration (toLowerCase (tagName node)) step
   <-> stepOptimized step = false
       /\ isTarget = true
       /\ toLowerCase (tagName node) = lit "input"
       /\ truthy (getAttribute node (lit "type")) = true
       /\ truthy (getAttribute node (lit "id")) = false
       /\ truthy (getAttribute node (lit "class")) = false).
Proof.
  intros Hidem E.
  assert (Hdec : decorates toLowerCase node isTarget
                          (toLowerCase (tagName node)) = true
                 <-> isTarget = true
                     /\ toLowerCase (tagName node) = lit "input"
                     /\ truthy (getAttribute node (lit "type")) = true
                     /\ truthy (getAttribute node (lit "id")) = false
                     /\ truthy (getAttribute node (lit "class")) = false).
  { unfold decorates.
    rewrite !andb_true_iff, !negb_true_iff, str_eqb_eq, Hidem. tauto. }
  destruct (stepOptimized step) eqn:Hopt.
  - split.
    + intros H. destruct (optimized_step_not_decorated node isTarget E Hopt H).
    + intros [H _]. discriminate H.
  - destruct (@computeStep_structural toLowerCase node isTarget step E Hopt)
      as (_ & _ & wm & _ & Ev).
    rewrite <- Hdec. split.
    + intros (v & rest & Hv). rewrite Ev in Hv. inversion Hv as [Hv'].
      split; [reflexivity|].
      destruct (decorates _ _ _ _); [reflexivity|].
      rewrite app_nil_r in Hv'. apply app_inv_head in Hv'.
      destruct (mode wm); discriminate Hv'.
    + intros [_ Hd]. rewrite Hd in Ev.
      apply Hdec in Hd. destruct Hd as (_ & _ & Hty & _).
      destruct (getAttribute node (lit "type")) as [v|]; [|discriminate Hty].
      exists v. eexists. rewrite Ev, <- app_assoc. reflexivity.
Qed.

(** C6 (amended). The fragment of a step is the lowercased tag name, then
    [[type="<value>"]] where [<value>] is the [type] attribute of the element
    as it is written, then nothing or one [:nth-child(k)], if and only if the
    step is not an optimized one, it is the step of the target, the
    lowercased tag is [input], the [type] attribute is there and not empty,
    and [id] and [class] are each absent or empty. A step carries no
    decoration of any other value, and the step of an ancestor, which is not
    the target, carries none at all. [toLowerCase] is taken idempotent. *)
Theorem type_decoration_iff (node : Node) (isTarget : bool)
    (step : DOMNodePathStep) :
  (forall s, toLowerCase (toLowerCase s) = toLowerCase s) ->
  computeStep toLowerCase node isTarget = Ok step ->
  (carriesTypeDecoration node (toLowerCase (tagName node)) step
   <-> stepOptimized step = false
       /\ isTarget = true
       /\ toLowerCase (tagName node) = lit "input"
       /\ truthy (getAttribute node (lit "type")) = true
       /\ truthy (getAttribute node (lit "id")) = false
       /\ truthy (getAttribute node (lit "class")) = false)
  /\ (carriesSomeTypeDecoration (toLowerCase (tagName node)) step
      <-> carriesTypeDecoration node (toLowerCase (tagName node)) step)
  /\ (isTarget = false ->
      ~ carriesSomeTypeDecoration (toLowerCase (tagName node)) step).
Proof.
  intros Hidem E. pose proof (@decorated_iff node isTarget step Hidem E) as H.
  assert (Hsome : carriesTypeDecoration node (toLowerCase (tagName node)) step
                  -> carriesSomeTypeDecoration (toLowerCase (tagName node))
                       step).
  { intros (v & _ & [Hv|(k & Hv)]).
    - exists v, []. rewrite Hv, app_nil_r. reflexivity.
    - exists v, (nthChildSuffix k). exact Hv. }
  assert (Hexact : carriesSomeTypeDecoration (toLowerCase (tagName node)) step
                   -> carriesTypeDecoration node (toLowerCase (tagName node))
                        step).
  { intros Hc. apply H in Hc.
    destruct Hc as (Hopt & Ht & Htag & Hty & Hid & Hcl).
    destruct (@computeStep_structural toLowerCase node isTarget step E Hopt)
      as (_ & _ & wm & _ & Ev).
    assert (Hd : decorates toLowerCase node isTarget
                   (toLowerCase (tagName node)) = true).
    { unfold decorates.
      rewrite Ht, Hidem, Htag, Hty, Hid, Hcl. reflexivity. }
    rewrite Hd in Ev.
    destruct (getAttribute node (lit "type")) as [v|] eqn:Ea;
      [|discriminate Hty].
    exists v. split; [exact Ea|].
    destruct (mode wm).
    - right. exists (index wm + 1)%Z. rewrite Ev, <- app_assoc. reflexivity.
    - left. rewrite Ev, app_nil_r. reflexivity. }
  split; [|split].
  - split.
    + intros Hc. apply H. apply Hsome. exact Hc.
    + intros Hc. apply Hexact. apply H. exact Hc.
  - split; [exact Hexact | exact Hsome].
  - intros Hf Hc. apply H in Hc. destruct Hc as (_ & Ht & _). congruence.
Qed.

End Decoration.

Lemma asciiToLowerCase_idempotent (s : jsstring) :
  asciiToLowerCase (asciiToLowerCase s) = asciiToLowerCase s.
Proof.
  unfold asciiToLowerCase. rewrite map_map. apply map_ext. intros c.
  destruct (inRange "A" "Z" c) eqn:E; [|rewrite E; reflexivity].
  replace (inRange "A" "Z" (c + 32)) with false; [reflexivity|].
  symmetry. unfold inRange, cu in *. simpl N_of_ascii in *.
  apply andb_true_iff in E. destruct E as [E1 E2].
  apply N.leb_le in E1, E2. apply andb_false_iff. right.
  apply N.leb_gt. lia.
Qed.

Lemma type_decoration_iff_witness :
  let node := nodeAt mixedCaseInputs [0; 0; 0; 1] in
  let step :=
    mkDOMNodePathStep
      (Some (lit "input[type=" ++ dquote ++ lit "PassWord" ++ dquote
                 ++ lit "]:nth-child(2)")) false in
  computeStep asciiToLowerCase node true = Ok step
  /\ (carriesTypeDecoration node (asciiToLowerCase (tagName node)) step
      <-> stepOptimized step = false
          /\ true = true
          /\ asciiToLowerCase (tagName node) = lit "input"
          /\ truthy (getAttribute node (lit "type")) = true
          /\ truthy (getAttribute node (lit "id")) = false
          /\ truthy (getAttribute node (lit "class")) = false)
  /\ (carriesSomeTypeDecoration (asciiToLowerCase (tagName node)) step
      <-> carriesTypeDecoration node (asciiToLowerCase (tagName node)) step)
  /\ (true = false ->
      ~ carriesSomeTypeDecoration (asciiToLowerCase (tagName node)) step).
Proof.
  intros node step. split; [reflexivity|].
  apply (@type_decoration_iff asciiToLowerCase node true step
           asciiToLowerCase_idempotent).
  reflexivity.
Defined.

(** The decoration that a fragment carries has one value: the decimal
    digits of [k] hold no parenthesis, so that the fragment splits at its
    last [(] in one way only. *)
Lemma string_of_uint_no_paren (u : Decimal.uint) :
  ~ In (cu "(") (lit (DecimalString.NilZero.string_of_uint u)).
Proof.
  assert (H : forall d,
             ~ In (cu "(") (lit (DecimalString.NilEmpty.string_of_uint d))).
  { induction d as [|d IH|d IH|d IH|d IH|d IH|d IH|d IH|d IH|d IH|d IH];
      [intros []|intros [H|H]; [discriminate H|exact (IH H)]..]. }
  destruct u; try apply H.
  intros [E|[]]. discriminate E.
Qed.

Lemma toStringZ_no_paren (k : Z) : ~ In (cu "(") (toStringZ k).
Proof.
  unfold toStringZ, DecimalString.NilZero.string_of_int.
  destruct (Z.to_int k) as [u|u].
  - apply string_of_uint_no_paren.
  - intros [H|H]; [discriminate H|]. exact (string_of_uint_no_paren u H).
Qed.

Lemma split_at_last (c : N) (a b d e : jsstring) :
  ~ In c d -> ~ In c e -> a ++ c :: d = b ++ c :: e -> a = b /\ d = e.
Proof.
  intros Hd He. revert b.
  induction a as [|x a IH]; intros [|y b] E; simpl in E.
  - injection E as Hr. split; [reflexivity|exact Hr].
  - injection E as Hx Hr. destruct Hd. rewrite Hr.
    apply in_or_app. right. left. reflexivity.
  - injection E as Hx Hr. destruct He. rewrite <- Hr.
    apply in_or_app. right. left. reflexivity.
  - injection E as Hx Hr. destruct (IH b Hr) as [Ha Hde].
    split; [congruence|exact Hde].
Qed.

Lemma typeSelector_value_unique (nodeName v w : jsstring) (k l : Z) :
  nodeName ++ typeSelector v ++ nthChildSuffix k
  = nodeName ++ typeSelector w ++ nthChildSuffix l ->
  v = w.
Proof.
  intros E. apply app_inv_head in E.
  unfold typeSelector, nthChildSuffix in E.
  rewrite <- !app_assoc in E.
  apply app_inv_head in E. apply app_inv_head in E.
  assert (E' : (v ++ dquote ++ lit "]" ++ lit ":nth-child")
                 ++ cu "(" :: toStringZ k ++ lit ")"
               = (w ++ dquote ++ lit "]" ++ lit ":nth-child")
                 ++ cu "(" :: toStringZ l ++ lit ")").
  { rewrite <- !app_assoc. exact E. }
  apply split_at_last in E'.
  - destruct E' as [E' _]. apply app_inv_tail in E'. exact E'.
  - intros H. apply in_app_or in H. destruct H as [H|[H|[]]].
    + exact (toStringZ_no_paren k H).
    + discriminate H.
  - intros H. apply in_app_or in H. destruct H as [H|[H|[]]].
    + exact (toStringZ_no_paren l H).
    + discriminate H.
Qed.

(** The value is pasted as the attribute has it: the target
    [<input type="PassWord">] of [mixedCaseInputs] gives
    [input[type="PassWord"]:nth-child(2)], upper-case letters kept, and the
    fragment is the decoration of no other value. *)
Example type_decoration_verbatim :
  let node := nodeAt mixedCaseInputs [0; 0; 0; 1] in
  let step :=
    mkDOMNodePathStep
      (Some (lit "input" ++ typeSelector (lit "PassWord")
                 ++ nthChildSuffix 2)) false in
  getAttribute node (lit "type") = Some (lit "PassWord")
  /\ computeStep asciiToLowerCase node true = Ok step
  /\ carriesTypeDecoration node (lit "input") step
  /\ forall v k,
       stepValue step = Some (lit "input" ++ typeSelector v ++ nthChildSuffix k)
       -> v = lit "PassWord".
Proof.
  intros node step. split; [reflexivity|]. split; [reflexivity|]. split.
  - exists (lit "PassWord"). split; [reflexivity|]. right. exists 2%Z.
    reflexivity.
  - intros v k E.
    apply (@typeSelector_value_unique (lit "input") v (lit "PassWord") k 2).
    cbn [step stepValue] in E. congruence.
Qed.

(** C6 as stated fails. The target [<input type="">] of [inputEmptyType] is
    an [input], has a [type] attribute and has neither [id] nor [class], and
    its step is the bare [input]; so is the step of the target
    [<input type="text">] that has no parent. *)
Lemma type_decoration_missing_counterexample :
  let node := nodeAt inputEmptyType [0; 0; 0; 0] in
  let orphan := root detachedInput in
  let step := mkDOMNodePathStep (Some (lit "input")) false in
  let orphanStep := mkDOMNodePathStep (Some (lit "input")) true in
  (getAttribute node (lit "type") = Some []
   /\ getAttribute node (lit "id") = None
   /\ getAttribute node (lit "class") = None
   /\ asciiToLowerCase (tagName node) = lit "input"
   /\ computeStep asciiToLowerCase node true = Ok step
   /\ ~ carriesSomeTypeDecoration (lit "input") step)
  /\ (getAttribute orphan (lit "type") = Some (lit "text")
      /\ getAttribute orphan (lit "id") = None
      /\ getAttribute orphan (lit "class") = None
      /\ asciiToLowerCase (tagName orphan) = lit "input"
      /\ computeStep asciiToLowerCase orphan true = Ok orphanStep
      /\ ~ carriesSomeTypeDecoration (lit "input") orphanStep).
Proof.
  intros node orphan step orphanStep.
  assert (H : forall v rest,
             Some (lit "input")
             <> Some (lit "input" ++ typeSelector v ++ rest)).
  { intros v rest E. discriminate E. }
  repeat split; try reflexivity; intros (v & rest & E); exact (H v rest E).
Qed.

(** The other way round: the [<input type="text" class="">] of
    [inputEmptyClass] has a [class] attribute, and the step of the target
    carries the decoration all the same. *)
Example type_decoration_empty_class :
  let node := nodeAt inputEmptyClass [0; 0; 0; 0] in
  let step :=
    mkDOMNodePathStep
      (Some (lit "input[type=" ++ dquote ++ lit "text" ++ dquote ++ lit "]"))
      false in
  getAttribute node (lit "class") = Some []
  /\ computeStep asciiToLowerCase node true = Ok step
  /\ carriesSomeTypeDecoration (asciiToLowerCase (tagName node)) step.
Proof.
  intros node step. split; [reflexivity|]. split; [reflexivity|].
  exists (lit "text"), []. reflexivity.
Qed.

(* ================================================================== *)
(** ** The scenarios of the specification, run on the code *)

Example scenario_id_anchor :
  selectorOf mainParagraph [0; 0; 0; 0] = Ok (lit "#main > p").
Proof. reflexivity. Qed.

Example scenario_third_paragraph :
  selectorOf threeParagraphs [0; 0; 0; 2]
  = Ok (lit "body > div > p:nth-child(3)").
Proof. reflexivity. Qed.

Example scenario_password_input :
  selectorOf twoInputs [0; 0; 0; 1]
  = Ok (lit "body > form > input[type=" ++ dquote ++ lit "password" ++ dquote
            ++ lit "]:nth-child(2)").
Proof. reflexivity. Qed.

Example scenario_body :
  selectorOf threeParagraphs [0; 0] = Ok (lit "body").
Proof. reflexivity. Qed.

Example scenario_text_node :
  selectorOf threeParagraphs [0; 0; 0; 1; 0] = Ok [].
Proof. reflexivity. Qed.

Example scenario_detached :
  selectorOf detachedDiv [0] = Ok (lit "div > p").
Proof. reflexivity. Qed.

(** A sibling of the same tag that has all the classes of the element: the
    classes are struck one by one and the mode falls back to NTH_CHILD. *)
Example shared_classes_fall_back :
  getWritingMode asciiToLowerCase (nodeAt sharedClasses [0; 0; 0; 0])
  = Ok (mkWritingModeResult NTH_CHILD 0 [])
  /\ getWritingMode asciiToLowerCase (nodeAt sharedClasses [0; 0; 0; 1])
     = Ok (mkWritingModeResult TAGNAME_AND_CLASSNAME 1 [lit "$c"])
  /\ selectorOf sharedClasses [0; 0; 0; 0]
     = Ok (lit "body > div > p:nth-child(1)").
Proof. repeat split; reflexivity. Qed.

(* ================================================================== *)
(** * Further properties of the code *)

(** ** Arrays of class names *)

Lemma includes_In (arr : list jsstring) (x : jsstring) :
  includes arr x = true <-> In x arr.
Proof.
  unfold includes. rewrite existsb_exists. split.
  - intros (y & Hin & E). apply str_eqb_eq in E. subst y. exact Hin.
  - intros Hin. exists x. split; [exact Hin | apply str_eqb_eq; reflexivity].
Qed.

(** [splice(indexOf(c), 1)] takes the first occurrence of [c] away. *)
Lemma splice_indexOf (own : list jsstring) (c : jsstring) :
  In c own ->
  exists l1 l2,
    own = l1 ++ c :: l2
    /\ ~ In c l1
    /\ indexOf own c = Z.of_nat (length l1)
    /\ splice1 own (Z.to_nat (indexOf own c)) = l1 ++ l2.
Proof.
  induction own as [|y own IH]; [intros []|].
  intros Hin. simpl indexOf. destruct (str_eqb y c) eqn:E.
  - apply str_eqb_eq in E. subst y. exists [], own. simpl. tauto.
  - assert (Hne : y <> c).
    { intros ->. rewrite (proj2 (str_eqb_eq c c) eq_refl) in E.
      discriminate E. }
    destruct Hin as [Hin|Hin]; [contradiction|].
    destruct (IH Hin) as (l1 & l2 & Eo & Hn & Ei & Es).
    exists (y :: l1), l2. rewrite Ei in *.
    replace (Z.of_nat (length l1) =? -1)%Z with false
      by (symmetry; apply Z.eqb_neq; lia).
    repeat split.
    + simpl. rewrite Eo at 1. reflexivity.
    + intros [H|H]; [contradiction | exact (Hn H)].
    + simpl length. lia.
    + replace (Z.to_nat (Z.of_nat (length l1) + 1)) with (S (length l1)) by lia.
      simpl. rewrite Nat2Z.id in Es. rewrite Es. reflexivity.
Qed.

(** The inner loop keeps [ownClassNameCount] equal to the length of the
    array: the classes left are classes that were there, none is left exactly
    when [needsNthChild] is set, and no class of the sibling is left when it
    is not set and the array had no class twice. *)
Lemma eliminateClasses_spec (sib : list jsstring) :
  forall (own : list jsstring) (count : Z),
    count = Z.of_nat (length own) ->
    own <> [] ->
    incl (fst (eliminateClasses sib own count)) own
    /\ (snd (eliminateClasses sib own count) = true
        <-> fst (eliminateClasses sib own count) = [])
    /\ (NoDup own ->
        NoDup (fst (eliminateClasses sib own count))
        /\ (snd (eliminateClasses sib own count) = false ->
            forall c, In c sib ->
                      ~ In c (fst (eliminateClasses sib own count)))).
Proof.
  induction sib as [|sc sib IH]; intros own count Hc Hne; simpl.
  - split; [apply incl_refl|]. split.
    + split; [discriminate | intros E; contradiction].
    + intros Hnd. split; [exact Hnd | intros _ c []].
  - destruct (includes own sc) eqn:Einc; simpl.
    + apply includes_In in Einc.
      destruct (splice_indexOf own sc Einc) as (l1 & l2 & Eo & Hn & _ & Es).
      rewrite Es.
      assert (Hincl : incl (l1 ++ l2) own).
      { rewrite Eo. intros x Hx. apply in_app_or in Hx. apply in_or_app.
        destruct Hx; [left | right; right]; assumption. }
      assert (Hlen : length own = S (length (l1 ++ l2))).
      { rewrite Eo, !length_app. simpl. lia. }
      assert (Hnd' : NoDup own -> NoDup (l1 ++ l2) /\ ~ In sc (l1 ++ l2)).
      { rewrite Eo. intros Hnd. split.
        - apply NoDup_remove_1 in Hnd. exact Hnd.
        - apply NoDup_remove_2 in Hnd. exact Hnd. }
      destruct (count - 1 =? 0)%Z eqn:Ez; simpl.
      * apply Z.eqb_eq in Ez.
        assert (E0 : l1 ++ l2 = []).
        { destruct (l1 ++ l2); [reflexivity | simpl in Hlen; lia]. }
        split; [exact Hincl|]. split; [tauto|].
        intros Hnd. split; [apply Hnd', Hnd | discriminate].
      * apply Z.eqb_neq in Ez.
        assert (Hne' : l1 ++ l2 <> []).
        { intros E0. rewrite E0 in Hlen. simpl in Hlen. lia. }
        destruct (@IH (l1 ++ l2) (count - 1)%Z ltac:(lia) Hne')
          as (Hi & Hiff & Hnodup).
        split; [intros x Hx; apply Hincl, Hi, Hx|]. split; [exact Hiff|].
        intros Hnd. destruct (Hnd' Hnd) as [Hnd1 Hnot].
        destruct (Hnodup Hnd1) as [Hnd2 Hno]. split; [exact Hnd2|].
        intros Hf c [<-|Hin]; [|exact (Hno Hf c Hin)].
        intros Hx. apply Hnot, Hi, Hx.
    + destruct (IH own count Hc Hne) as (Hi & Hiff & Hnodup).
      split; [exact Hi|]. split; [exact Hiff|].
      intros Hnd. destruct (Hnodup Hnd) as [Hnd2 Hno]. split; [exact Hnd2|].
      intros Hf c [<-|Hin]; [|exact (Hno Hf c Hin)].
      intros Hx. apply Hi in Hx. apply includes_In in Hx. congruence.
Qed.

Section Elimination.

Variable toLowerCase : jsstring -> jsstring.
Variables (node : Node) (nodeName : jsstring).

(** One turn of the loop over the siblings: the loop is left, or the sibling
    changes neither the classes nor [needsNthChild], or it is a sibling of
    the same tag, which sets [needsNthChild] for an element without classes
    and strikes its classes otherwise. *)
Lemma scan_cons (s : Node) (rest : list Node) (st : ScanState) :
  exists st1,
    (scanSiblings toLowerCase node nodeName (s :: rest) st = st
     /\ needsNthChild st = true)
    \/ (scanSiblings toLowerCase node nodeName (s :: rest) st
        = scanSiblings toLowerCase node nodeName rest st1
        /\ ((prefixedOwnClassNames st1 = prefixedOwnClassNames st
             /\ needsNthChild st1 = needsNthChild st
             /\ (needsNthChild st = true
                 \/ nodeType s <> ELEMENT_NODE
                 \/ sameNode s node = true
                 \/ toLowerCase (tagName s) <> nodeName))
            \/ (needsNthChild st = false
                /\ nodeType s = ELEMENT_NODE
                /\ sameNode s node = false
                /\ toLowerCase (tagName s) = nodeName
                /\ ((prefixedOwnClassNames st = []
                     /\ prefixedOwnClassNames st1 = []
                     /\ needsNthChild st1 = true)
                    \/ (prefixedOwnClassNames st <> []
                        /\ eliminateClasses (prefixedElementClassNames s)
                             (prefixedOwnClassNames st)
                             (Z.of_nat (length (prefixedOwnClassNames st)))
                           = (prefixedOwnClassNames st1,
                              needsNthChild st1)))))).
Proof.
  cbn [scanSiblings].
  destruct (negb ((ownIndex st =? -1)%Z || negb (needsNthChild st))) eqn:Ec.
  { exists st. left. split; [reflexivity|].
    apply negb_true_iff, orb_false_iff in Ec. destruct Ec as [_ Ec].
    apply negb_false_iff in Ec. exact Ec. }
  destruct (nodeType_eqb (nodeType s) ELEMENT_NODE) eqn:Et; simpl.
  2: { exists st. right. split; [reflexivity|]. left.
       repeat split. right. left. intros E. rewrite E in Et. discriminate. }
  apply nodeType_eqb_eq in Et.
  destruct (sameNode s node) eqn:Es.
  { eexists. right. split; [reflexivity|]. left. simpl.
    repeat split. right. right. left. reflexivity. }
  destruct (needsNthChild st) eqn:En.
  { eexists. right. split; [reflexivity|]. left. simpl.
    repeat split. left. reflexivity. }
  destruct (str_eqb (toLowerCase (tagName s)) nodeName) eqn:Eg; simpl.
  2: { eexists. right. split; [reflexivity|]. left. simpl.
       repeat split. right. right. right.
       intros E. apply str_eqb_eq in E. congruence. }
  apply str_eqb_eq in Eg.
  destruct (prefixedOwnClassNames st) as [|c0 own0] eqn:Eo; simpl.
  { eexists. right. split; [reflexivity|]. right. simpl.
    repeat split; try assumption. left. repeat split. }
  destruct (eliminateClasses _ _ _) as [own needs] eqn:Ee.
  eexists. right. split; [reflexivity|]. right. simpl.
  repeat split; try assumption. right. split; [discriminate|].
  reflexivity.
Qed.

End Elimination.

(* ================================================================== *)
(** ** The classes that the loop over the siblings leaves *)

Section SurvivingClasses.

Variable toLowerCase : jsstring -> jsstring.
Variables (node : Node) (nodeName : jsstring).

(** Over any siblings: the classes left were there before, none is left once
    [needsNthChild] is set, [needsNthChild] is never reset, and, when the
    element has no class twice and [needsNthChild] stays unset, no class of a
    sibling of the same tag is left. *)
Lemma scan_classes (rest : list Node) :
  forall st : ScanState,
    (needsNthChild st = true -> prefixedOwnClassNames st = []) ->
    incl (prefixedOwnClassNames
            (scanSiblings toLowerCase node nodeName rest st))
         (prefixedOwnClassNames st)
    /\ (needsNthChild (scanSiblings toLowerCase node nodeName rest st) = true ->
        prefixedOwnClassNames
          (scanSiblings toLowerCase node nodeName rest st) = [])
    /\ (needsNthChild st = true ->
        needsNthChild (scanSiblings toLowerCase node nodeName rest st) = true)
    /\ (NoDup (prefixedOwnClassNames st) ->
        NoDup (prefixedOwnClassNames
                 (scanSiblings toLowerCase node nodeName rest st))
        /\ (needsNthChild (scanSiblings toLowerCase node nodeName rest st)
            = false ->
            forall s, In s rest ->
              nodeType s = ELEMENT_NODE ->
              sameNode s node = false ->
              toLowerCase (tagName s) = nodeName ->
              forall c, In c (prefixedElementClassNames s) ->
                ~ In c (prefixedOwnClassNames
                          (scanSiblings toLowerCase node nodeName rest st)))).
Proof.
  induction rest as [|s rest IH]; intros st Hst.
  { simpl. split; [apply incl_refl|]. split; [exact Hst|].
    split; [tauto|]. intros Hnd. split; [exact Hnd | intros _ s []]. }
  destruct (scan_cons toLowerCase node nodeName s rest st)
    as (st1 & [[E Hn] | [E Hcases]]).
  { rewrite E. split; [apply incl_refl|]. split; [exact Hst|].
    split; [tauto|]. intros Hnd. split; [exact Hnd|]. congruence. }
  rewrite E.
  assert (Hkey :
    (needsNthChild st1 = true -> prefixedOwnClassNames st1 = [])
    /\ incl (prefixedOwnClassNames st1) (prefixedOwnClassNames st)
    /\ (needsNthChild st = true -> needsNthChild st1 = true)
    /\ (NoDup (prefixedOwnClassNames st) ->
        NoDup (prefixedOwnClassNames st1)
        /\ (needsNthChild st1 = false ->
            nodeType s = ELEMENT_NODE ->
            sameNode s node = false ->
            toLowerCase (tagName s) = nodeName ->
            forall c, In c (prefixedElementClassNames s) ->
              ~ In c (prefixedOwnClassNames st1)))).
  { destruct Hcases as [(Eo & En & Hwhy) | (En & Ht & Hs & Hg & Hsame)].
    - rewrite Eo, En. split; [exact Hst|]. split; [apply incl_refl|].
      split; [tauto|]. intros Hnd. split; [exact Hnd|].
      intros Hf Ht Hs Hg.
      destruct Hwhy as [H|[H|[H|H]]]; congruence.
    - destruct Hsame as [(Eo & Eo1 & En1) | (Hne & Ee)].
      + rewrite Eo1, Eo. split; [reflexivity|]. split; [apply incl_refl|].
        split; [intros _; exact En1|]. intros _. split; [constructor|].
        congruence.
      + pose proof (@eliminateClasses_spec (prefixedElementClassNames s)
                      (prefixedOwnClassNames st) _ eq_refl Hne) as Hspec.
        rewrite Ee in Hspec. simpl in Hspec.
        destruct Hspec as (Hi & Hiff & Hnodup).
        split; [apply Hiff|]. split; [exact Hi|].
        split; [congruence|]. intros Hnd.
        destruct (Hnodup Hnd) as [Hnd1 Hno]. split; [exact Hnd1|].
        intros Hf _ _ _. exact (Hno Hf). }
  destruct Hkey as (Hst1 & Hi1 & Hmono & Hnodup1).
  destruct (IH st1 Hst1) as (Hi & Hempty & Hmono' & Hnodup).
  split; [intros x Hx; apply Hi1, Hi, Hx|]. split; [exact Hempty|].
  split; [intros H; apply Hmono', Hmono, H|].
  intros Hnd. destruct (Hnodup1 Hnd) as [Hnd1 Hhead].
  destruct (Hnodup Hnd1) as [Hnd2 Htail]. split; [exact Hnd2|].
  intros Hf s' [<-|Hin] Ht Hs Hg c Hc.
  - intros Hx. apply Hi in Hx.
    destruct (needsNthChild st1) eqn:En1.
    + rewrite (Hmono' eq_refl) in Hf. discriminate.
    + exact (Hhead eq_refl Ht Hs Hg c Hc Hx).
  - exact (Htail Hf s' Hin Ht Hs Hg c Hc).
Qed.

(** Without a sibling of the same tag nothing is struck and [needsNthChild]
    stays unset. *)
Lemma scan_no_same_tag (rest : list Node) :
  forall st : ScanState,
    needsNthChild st = false ->
    (forall s, In s rest ->
       nodeType s = ELEMENT_NODE ->
       sameNode s node = false ->
       toLowerCase (tagName s) <> nodeName) ->
    needsNthChild (scanSiblings toLowerCase node nodeName rest st) = false
    /\ prefixedOwnClassNames (scanSiblings toLowerCase node nodeName rest st)
       = prefixedOwnClassNames st.
Proof.
  induction rest as [|s rest IH]; intros st Hn Hall; [simpl; tauto|].
  destruct (scan_cons toLowerCase node nodeName s rest st)
    as (st1 & [[E Hn'] | [E Hcases]]); [congruence|].
  rewrite E.
  destruct Hcases as [(Eo & En & _) | (_ & Ht & Hs & Hg & _)].
  - rewrite <- Eo. apply IH; [congruence|].
    intros s' Hin. apply Hall. right. exact Hin.
  - destruct (Hall s (or_introl eq_refl) Ht Hs Hg).
Qed.

(** For an element without classes, [needsNthChild] is set exactly when
    there is a sibling element of the same tag. *)
Lemma scan_classless (rest : list Node) :
  forall st : ScanState,
    prefixedOwnClassNames st = [] ->
    (needsNthChild (scanSiblings toLowerCase node nodeName rest st) = true
     <-> needsNthChild st = true
         \/ exists s, In s rest
                      /\ nodeType s = ELEMENT_NODE
                      /\ sameNode s node = false
                      /\ toLowerCase (tagName s) = nodeName).
Proof.
  induction rest as [|s rest IH]; intros st Ho.
  { simpl. split; [tauto | intros [H|(s & [] & _)]; exact H]. }
  destruct (scan_cons toLowerCase node nodeName s rest st)
    as (st1 & [[E Hn] | [E Hcases]]); [rewrite E; tauto|].
  rewrite E.
  destruct Hcases as [(Eo & En & Hwhy) | (En & Ht & Hs & Hg & Hsame)].
  - rewrite (IH st1) by congruence. rewrite En. split.
    + intros [H|(s' & Hin & H)]; [left; exact H|].
      right. exists s'. split; [right; exact Hin | exact H].
    + intros [H|(s' & [<-|Hin] & Ht & Hs & Hg)]; [left; exact H| |].
      * destruct Hwhy as [H|[H|[H|H]]]; try congruence. left; exact H.
      * right. exists s'. tauto.
  - destruct Hsame as [(_ & Eo1 & En1) | (Hne & _)]; [|contradiction].
    rewrite (IH st1 Eo1). split; [|tauto].
    intros _. right. exists s. split; [left; reflexivity | tauto].
Qed.

End SurvivingClasses.

Section WritingMode.

Variable toLowerCase : jsstring -> jsstring.

Lemma children_elements (parent s : Node) :
  In s (children parent) -> nodeType s = ELEMENT_NODE.
Proof.
  unfold children. intros H. apply filter_In in H.
  apply nodeType_eqb_eq, H.
Qed.

(** X1. The classes that [getWritingMode] returns are classes of the element,
    and in NTH_CHILD mode it returns none. *)
Theorem getWritingMode_classes (node : Node) (wm : WritingModeResult) :
  getWritingMode toLowerCase node = Ok wm ->
  incl (ownClassNames wm) (prefixedElementClassNames node)
  /\ (mode wm = NTH_CHILD -> ownClassNames wm = []).
Proof.
  unfold getWritingMode.
  destruct (parentNode node) as [parent|]; [|discriminate].
  intros E. inversion E; subst wm; clear E. simpl.
  destruct (@scan_classes toLowerCase node (toLowerCase (tagName node))
              (children parent)
              (mkScanState false (-1)%Z (-1)%Z
                           (prefixedElementClassNames node)))
    as (Hi & Hempty & _); [discriminate|].
  split; [exact Hi|].
  destruct (needsNthChild _); [auto | discriminate].
Qed.

(** X2. When no class of the element is written twice, a class that
    [getWritingMode] returns in TAGNAME_AND_CLASSNAME mode is a class of no
    sibling element of the same tag. *)
Theorem surviving_class_of_no_sibling (node parent : Node)
    (wm : WritingModeResult) (s : Node) (c : jsstring) :
  NoDup (prefixedElementClassNames node) ->
  parentNode node = Some parent ->
  getWritingMode toLowerCase node = Ok wm ->
  mode wm = TAGNAME_AND_CLASSNAME ->
  In s (children parent) ->
  sameNode s node = false ->
  toLowerCase (tagName s) = toLowerCase (tagName node) ->
  In c (prefixedElementClassNames s) ->
  ~ In c (ownClassNames wm).
Proof.
  intros Hnd Hp. unfold getWritingMode. rewrite Hp.
  intros E. inversion E; subst wm; clear E. simpl.
  destruct (@scan_classes toLowerCase node (toLowerCase (tagName node))
              (children parent)
              (mkScanState false (-1)%Z (-1)%Z
                           (prefixedElementClassNames node)))
    as (_ & _ & _ & Hno); [discriminate|].
  destruct (Hno Hnd) as [_ Hno'].
  destruct (needsNthChild _); [discriminate|].
  intros _ Hin Hs Hg Hc.
  exact (Hno' eq_refl s Hin (children_elements _ _ Hin) Hs Hg c Hc).
Qed.

(** X3. An element none of whose sibling elements has its tag is in
    TAGNAME_AND_CLASSNAME mode and keeps all its classes. *)
Theorem no_same_tag_sibling_keeps_classes (node parent : Node) :
  parentNode node = Some parent ->
  (forall s, In s (children parent) ->
     sameNode s node = false ->
     toLowerCase (tagName s) <> toLowerCase (tagName node)) ->
  exists i,
    getWritingMode toLowerCase node
    = Ok (mkWritingModeResult TAGNAME_AND_CLASSNAME i
            (prefixedElementClassNames node)).
Proof.
  intros Hp Hall. unfold getWritingMode. rewrite Hp.
  destruct (@scan_no_same_tag toLowerCase node (toLowerCase (tagName node))
              (children parent)
              (mkScanState false (-1)%Z (-1)%Z
                           (prefixedElementClassNames node)))
    as (Hn & Ho); [reflexivity | |].
  { intros s Hin _. apply Hall, Hin. }
  rewrite Hn, Ho. eexists. reflexivity.
Qed.

(** X4. An element without classes is in NTH_CHILD mode exactly when one of
    its sibling elements has its tag. *)
Theorem classless_nth_child_iff (node parent : Node)
    (wm : WritingModeResult) :
  prefixedElementClassNames node = [] ->
  parentNode node = Some parent ->
  getWritingMode toLowerCase node = Ok wm ->
  (mode wm = NTH_CHILD
   <-> exists s, In s (children parent)
                 /\ sameNode s node = false
                 /\ toLowerCase (tagName s) = toLowerCase (tagName node)).
Proof.
  intros Ho Hp. unfold getWritingMode. rewrite Hp, Ho.
  intros E. inversion E; subst wm; clear E. simpl.
  pose proof (@scan_classless toLowerCase node (toLowerCase (tagName node))
                (children parent)
                (mkScanState false (-1)%Z (-1)%Z []) eq_refl) as H.
  simpl in H.
  destruct (needsNthChild _).
  - split; [|reflexivity]. intros _.
    destruct (proj1 H eq_refl) as [Hf|(s & Hin & _ & Hs & Hg)];
      [discriminate|]. exists s. tauto.
  - split; [discriminate|]. intros (s & Hin & Hs & Hg).
    assert (Hex : false = true).
    { apply H. right. exists s.
      split; [exact Hin|]. split; [exact (children_elements _ _ Hin)|].
      tauto. }
    discriminate Hex.
Qed.

End WritingMode.

(* ================================================================== *)
(** ** The failures of [computeStep] *)

Section Failures.

Variable toLowerCase : jsstring -> jsstring.

(** [getOptimizedValue] throws exactly for an element without a non-empty
    [id], whose tag is none of [html], [head] and [body], and whose parent is
    a document. *)
Lemma getOptimizedValue_throw_iff (node : Node) (e : Error) :
  getOptimizedValue toLowerCase node = Throw e
  <-> e = ChildOfDocumentMustBeHtml
      /\ truthy (getAttribute node (lit "id")) = false
      /\ includes [lit "html"; lit "head"; lit "body"]
                  (toLowerCase (tagName node)) = false
      /\ exists parent,
           parentNode node = Some parent /\ nodeType parent = DOCUMENT_NODE.
Proof.
  unfold getOptimizedValue.
  destruct (getAttribute node (lit "id")) as [[|c id]|].
  2: { split; [discriminate | intros (_ & H & _); discriminate H]. }
  all: destruct (includes _ _);
    [split; [discriminate | intros (_ & _ & H & _); discriminate H]|];
    destruct (parentNode node) as [parent|];
    [|split; [discriminate | intros (_ & _ & _ & p & H & _); discriminate H]];
    destruct (nodeType_eqb (nodeType parent) DOCUMENT_NODE) eqn:Ed;
    [ apply nodeType_eqb_eq in Ed; split;
      [ intros E; inversion E; repeat split; exists parent; tauto
      | intros (-> & _); reflexivity ]
    | split; [discriminate|];
      intros (_ & _ & _ & p & Hp & Hd); inversion Hp; subst p;
      rewrite Hd in Ed; discriminate Ed ].
Qed.

(** X5. [computeStep] fails in two cases only: on a node that is not an
    element, and on an element without a non-empty [id], with a tag other
    than [html], [head] and [body], whose parent is a document. *)
Theorem computeStep_throw_iff (node : Node) (isTarget : bool) (e : Error) :
  computeStep toLowerCase node isTarget = Throw e
  <-> (nodeType node <> ELEMENT_NODE /\ e = ElementIsNotOne)
      \/ (nodeType node = ELEMENT_NODE
          /\ e = ChildOfDocumentMustBeHtml
          /\ truthy (getAttribute node (lit "id")) = false
          /\ includes [lit "html"; lit "head"; lit "body"]
                      (toLowerCase (tagName node)) = false
          /\ exists parent,
               parentNode node = Some parent
               /\ nodeType parent = DOCUMENT_NODE).
Proof.
  unfold computeStep.
  destruct (nodeType_eqb (nodeType node) ELEMENT_NODE) eqn:Et; simpl.
  - apply nodeType_eqb_eq in Et.
    destruct (getOptimizedValue toLowerCase node) as [[s|]|e'] eqn:Eo; simpl.
    + split; [discriminate|]. intros [[H _]|(_ & H)]; [contradiction|].
      apply getOptimizedValue_throw_iff in H. congruence.
    + destruct (getOptimizedValue_null toLowerCase node Eo)
        as (parent & Hp & Hd).
      assert (Ew : exists wm, getWritingMode toLowerCase node = Ok wm)
        by (unfold getWritingMode; rewrite Hp; eauto).
      destruct Ew as (wm & ->). cbn [bind].
      split; [discriminate|]. intros [[H _]|(_ & H)]; [contradiction|].
      apply getOptimizedValue_throw_iff in H. congruence.
    + split.
      * intros E. inversion E; subst e'. right. split; [exact Et|].
        apply getOptimizedValue_throw_iff. exact Eo.
      * intros [[H _]|(_ & H)]; [contradiction|].
        apply getOptimizedValue_throw_iff in H. congruence.
  - split.
    + intros E. inversion E. left. split; [|reflexivity].
      intros H. rewrite H in Et. discriminate Et.
    + intros [[_ ->]|(H & _)]; [reflexivity|].
      rewrite H in Et. discriminate Et.
Qed.

(** On an element [computeStep] throws nothing but the error of the child
    of a document. *)
Lemma computeStep_element_throw (node : Node) (isTarget : bool) (e : Error) :
  nodeType node = ELEMENT_NODE ->
  computeStep toLowerCase node isTarget = Throw e ->
  e = ChildOfDocumentMustBeHtml.
Proof.
  intros Ht. unfold computeStep. rewrite Ht. cbn [nodeType_eqb negb].
  destruct (getOptimizedValue toLowerCase node) as [[s|]|e'] eqn:Eo;
    cbn [bind]; [discriminate| |].
  - destruct (getOptimizedValue_null toLowerCase node Eo)
      as (parent & Hp & _).
    unfold getWritingMode. rewrite Hp. discriminate.
  - intros E. inversion E; subst e'.
    apply getOptimizedValue_throw_iff in Eo. tauto.
Qed.

(** A step that [computeStep] returns has a value: the null value on which
    [cssPath] would bail out is never produced. *)
Lemma computeStep_value (node : Node) (isTarget : bool)
    (step : DOMNodePathStep) :
  computeStep toLowerCase node isTarget = Ok step ->
  exists v, stepValue step = Some v.
Proof.
  intros E. destruct (stepOptimized step) eqn:Hopt.
  - unfold computeStep in E.
    destruct (negb (nodeType_eqb (nodeType node) ELEMENT_NODE));
      [discriminate|].
    destruct (getOptimizedValue toLowerCase node) as [[s|]|e'] eqn:Eo;
      simpl in E; [| |discriminate].
    + inversion E; subst s.
      destruct (getOptimizedValue_value toLowerCase node Eo)
        as [(id & H)|H]; eauto.
    + destruct (getWritingMode toLowerCase node); simpl in E;
        [|discriminate].
      inversion E; subst step. simpl. eauto.
  - destruct (@computeStep_structural toLowerCase node isTarget step E Hopt)
      as (_ & _ & wm & _ & Ev). eauto.
Qed.

Lemma newCSSPathStep_fields (node : Node) (isTarget : bool)
    (step : CSSPathStep) :
  newCSSPathStep toLowerCase node isTarget = Ok step ->
  stepNode step = node
  /\ isTargetNode step = isTarget
  /\ isNull step = false
  /\ exists v,
       value step = Some v
       /\ computeStep toLowerCase node isTarget
          = Ok (mkDOMNodePathStep (Some v) (optimized step)).
Proof.
  unfold newCSSPathStep.
  destruct (computeStep toLowerCase node isTarget) as [s|e] eqn:E;
    [|discriminate].
  simpl. intros E'. inversion E'; subst step; clear E'. simpl.
  destruct (computeStep_value node isTarget E) as (v & Hv).
  unfold isNull. simpl. rewrite Hv. repeat split.
  exists v. split; [reflexivity|]. destruct s. simpl in *. congruence.
Qed.

End Failures.

(* ================================================================== *)
(** ** The steps of a path *)

Lemma node_eta (n : Node) : mkNode (self n) (ancestors n) = n.
Proof. destruct n; reflexivity. Qed.

Section PathSteps.

Variable toLowerCase : jsstring -> jsstring.
Variable thisNode : Node.

(** The loop of [cssPath] pushes the steps of an ascent, one for each
    iteration. *)
Lemma ascend_Ascent (fs : list Frame) :
  forall (t : DomTree) (steps : list CSSPathStep) (k : nat)
         (out : list CSSPathStep) (n : nat),
    ascend toLowerCase thisNode t fs steps k = (Ok out, n) ->
    exists pushed,
      out = steps ++ pushed
      /\ n = k + length pushed
      /\ Ascent toLowerCase thisNode (mkNode t fs) pushed.
Proof.
  induction fs as [|f fs IH]; intros t steps k out n; simpl;
    (destruct (newCSSPathStep _ _ _) as [step|e] eqn:Es; [|discriminate]);
    destruct (newCSSPathStep_fields _ _ _ Es) as (_ & _ & Hnull & _);
    rewrite Hnull;
    (destruct (optimized step) eqn:Eopt;
     [ intros E; inversion E; subst out n; exists [step];
       repeat split; [simpl; lia | apply Ascent_last; auto] |]).
  - intros E; inversion E; subst out n. exists [step].
    repeat split; [simpl; lia|]. apply Ascent_last; auto.
  - destruct (nodeType_eqb (frameType f) ELEMENT_NODE) eqn:Ef.
    + intros E. destruct (IH _ _ _ _ _ E) as (pushed & -> & -> & HA).
      exists (step :: pushed). rewrite <- app_assoc. simpl.
      repeat split; [lia|].
      apply Ascent_more with (parent := mkNode (plug f t) fs); auto.
      unfold parentElement, parentNode, nodeType. simpl. rewrite Ef.
      reflexivity.
    + intros E; inversion E; subst out n. exists [step].
      repeat split; [simpl; lia|]. apply Ascent_last; auto. right.
      unfold parentElement, parentNode, nodeType. simpl. rewrite Ef.
      reflexivity.
Qed.

(** The path that [cssPath] returns for an element, read from the target
    up, is an ascent from the target, and its length is the number of
    iterations. *)
Lemma cssPath_Ascent (steps : list CSSPathStep) :
  nodeType thisNode = ELEMENT_NODE ->
  cssPath toLowerCase thisNode = Ok steps ->
  Ascent toLowerCase thisNode thisNode (rev steps)
  /\ length steps = cssPathIterations toLowerCase thisNode.
Proof.
  unfold cssPath, cssPathIterations, ascendFrom. intros Ht. rewrite Ht. simpl.
  destruct (ascend _ _ _ _ _ _) as [[out|e] n] eqn:Ea; simpl; [|discriminate].
  intros E; inversion E; subst steps; clear E.
  destruct (ascend_Ascent _ _ _ _ Ea) as (pushed & -> & -> & HA).
  simpl. rewrite rev_involutive, length_rev. rewrite node_eta in HA.
  split; [exact HA | reflexivity].
Qed.

(** What an ascent is made of. *)
Lemma Ascent_head (cursor : Node) (pushed : list CSSPathStep) :
  Ascent toLowerCase thisNode cursor pushed ->
  exists step rest,
    pushed = step :: rest
    /\ newCSSPathStep toLowerCase cursor (sameNode cursor thisNode) = Ok step.
Proof. intros H; inversion H; subst; eauto. Qed.

Lemma Ascent_tail (cursor : Node) (step : CSSPathStep)
    (rest : list CSSPathStep) :
  Ascent toLowerCase thisNode cursor (step :: rest) ->
  rest = []
  \/ exists parent,
       parentElement cursor = Some parent
       /\ Ascent toLowerCase thisNode parent rest.
Proof. intros H; inversion H; subst; eauto. Qed.

Lemma Ascent_steps (cursor : Node) (pushed : list CSSPathStep) :
  Ascent toLowerCase thisNode cursor pushed ->
  Forall (fun s =>
            exists v,
              value s = Some v
              /\ computeStep toLowerCase (stepNode s) (isTargetNode s)
                 = Ok (mkDOMNodePathStep (Some v) (optimized s)))
         pushed.
Proof.
  induction 1 as [cursor step Es _ | cursor step parent rest Es _ _ _ IH];
    destruct (newCSSPathStep_fields _ _ _ Es) as (Hn & Hf & _ & v & Hv & Ec);
    constructor; try assumption; try constructor;
    exists v; rewrite Hn, Hf; auto.
Qed.

Lemma Ascent_chain (cursor : Node) (pushed : list CSSPathStep) :
  Ascent toLowerCase thisNode cursor pushed ->
  forall l b a l',
    pushed = l ++ b :: a :: l' ->
    parentElement (stepNode b) = Some (stepNode a) /\ optimized b = false.
Proof.
  induction 1 as [cursor step Es _ | cursor step parent rest Es Hopt Hp HA IH];
    intros l b a l' E.
  - destruct l as [|x [|y l]]; discriminate E.
  - destruct l as [|x l]; simpl in E.
    + injection E as Eb Er. subst step rest.
      destruct (newCSSPathStep_fields _ _ _ Es) as (Hn & _).
      destruct (Ascent_head HA) as (s' & rest' & E' & Es').
      injection E' as <- <-.
      destruct (newCSSPathStep_fields _ _ _ Es') as (Hn' & _).
      rewrite Hn, Hn'. auto.
    + injection E as _ Er. subst rest. eapply IH. reflexivity.
Qed.

Lemma position_eqb_length (p q : list nat) :
  position_eqb p q = true -> length p = length q.
Proof. rewrite position_eqb_eq. intros ->. reflexivity. Qed.

Lemma parentElement_ancestors (cursor parent : Node) :
  parentElement cursor = Some parent ->
  S (length (ancestors parent)) = length (ancestors cursor).
Proof.
  unfold parentElement, parentNode.
  destruct (ancestors cursor) as [|f fs]; [discriminate|].
  destruct (nodeType_eqb _ _); [|discriminate].
  intros E; inversion E. reflexivity.
Qed.

Lemma Ascent_above_target (cursor : Node) (pushed : list CSSPathStep) :
  Ascent toLowerCase thisNode cursor pushed ->
  length (ancestors cursor) < length (ancestors thisNode) ->
  Forall (fun s => isTargetNode s = false) pushed.
Proof.
  assert (Hflag : forall c step,
             newCSSPathStep toLowerCase c (sameNode c thisNode) = Ok step ->
             length (ancestors c) < length (ancestors thisNode) ->
             isTargetNode step = false).
  { intros c step Es Hlt.
    destruct (newCSSPathStep_fields _ _ _ Es) as (_ & -> & _).
    destruct (sameNode c thisNode) eqn:E; [|reflexivity].
    apply position_eqb_length in E. unfold position in E.
    rewrite !length_map in E. lia. }
  induction 1 as [cursor step Es _ | cursor step parent rest Es _ Hp _ IH];
    intros Hlt; constructor; eauto.
  apply IH. apply parentElement_ancestors in Hp. lia.
Qed.

Lemma Ascent_last_step (cursor : Node) (pushed : list CSSPathStep) :
  Ascent toLowerCase thisNode cursor pushed ->
  exists init final,
    pushed = init ++ [final]
    /\ (optimized final = true
        \/ exists parent,
             parentNode (stepNode final) = Some parent
             /\ nodeType parent = OTHER_NODE).
Proof.
  induction 1 as [cursor step Es Hend | cursor step parent rest _ _ _ _ IH].
  - exists [], step. split; [reflexivity|].
    destruct (optimized step) eqn:Eopt; [left; reflexivity | right].
    destruct Hend as [H|Hpe]; [discriminate|].
    destruct (newCSSPathStep_fields _ _ _ Es) as (-> & _ & _ & v & _ & Ec).
    destruct (@computeStep_structural toLowerCase cursor _ _ Ec Eopt)
      as (_ & Eo & _).
    destruct (getOptimizedValue_null toLowerCase cursor Eo)
      as (parent & Hp & Hd).
    exists parent. split; [exact Hp|].
    unfold parentElement in Hpe. rewrite Hp in Hpe.
    destruct (nodeType parent); simpl in Hpe; congruence.
  - destruct IH as (init & final & -> & H).
    exists (step :: init), final. split; [reflexivity | exact H].
Qed.

(** X6. The steps of a path follow the ancestors of the target: each step but
    the last is the step of the parent element of the node of the next, the
    next is not optimized, and the last step is the step of the target. *)
Theorem cssPath_follows_ancestors (steps : list CSSPathStep) :
  cssPath toLowerCase thisNode = Ok steps ->
  (forall l1 a b l2,
      steps = l1 ++ a :: b :: l2 ->
      parentElement (stepNode b) = Some (stepNode a)
      /\ optimized b = false)
  /\ (forall l1 final, steps = l1 ++ [final] -> stepNode final = thisNode).
Proof.
  intros E.
  destruct (nodeType_eqb (nodeType thisNode) ELEMENT_NODE) eqn:Ht.
  - apply nodeType_eqb_eq in Ht.
    destruct (cssPath_Ascent Ht E) as [HA _]. split.
    + intros l1 a b l2 ->.
      apply (Ascent_chain HA (rev l2) b a (rev l1)).
      rewrite rev_app_distr. simpl. rewrite <- !app_assoc. reflexivity.
    + intros l1 final ->. rewrite rev_app_distr in HA. simpl in HA.
      destruct (Ascent_head HA) as (s & rest & E' & Es).
      inversion E'; subst s rest.
      destruct (newCSSPathStep_fields _ _ _ Es) as (-> & _). reflexivity.
  - unfold cssPath in E. rewrite Ht in E. inversion E; subst steps. split.
    + intros [|x [|y l1]] a b l2 H; discriminate H.
    + intros [|x l1] final H; discriminate H.
Qed.

(** X7. Exactly the last step of a path is flagged as the step of the target. *)
Theorem cssPath_target_flag (steps l1 : list CSSPathStep)
    (final : CSSPathStep) :
  cssPath toLowerCase thisNode = Ok steps ->
  steps = l1 ++ [final] ->
  isTargetNode final = true
  /\ Forall (fun s => isTargetNode s = false) l1.
Proof.
  intros E ->.
  destruct (nodeType_eqb (nodeType thisNode) ELEMENT_NODE) eqn:Ht.
  - apply nodeType_eqb_eq in Ht.
    destruct (cssPath_Ascent Ht E) as [HA _].
    rewrite rev_app_distr in HA. simpl in HA.
    destruct (Ascent_head HA) as (s & rest & E' & Es).
    injection E' as <- <-.
    destruct (newCSSPathStep_fields _ _ _ Es) as (_ & -> & _).
    split; [apply sameNode_refl|].
    rewrite <- (rev_involutive l1). apply Forall_rev.
    destruct (Ascent_tail HA) as [-> | (parent & Hp & HA')];
      [constructor|].
    apply (Ascent_above_target HA').
    apply parentElement_ancestors in Hp. lia.
  - unfold cssPath in E. rewrite Ht in E. inversion E as [E'].
    destruct l1; discriminate E'.
Qed.

(** X8. Every step of a path has a value and is what [computeStep] returns for
    its node and its flag; the path has one step for each iteration of the
    loop, and at least one when the target is an element. *)
Theorem cssPath_steps_computed (steps : list CSSPathStep) :
  cssPath toLowerCase thisNode = Ok steps ->
  Forall (fun s =>
            exists v,
              value s = Some v
              /\ computeStep toLowerCase (stepNode s) (isTargetNode s)
                 = Ok (mkDOMNodePathStep (Some v) (optimized s)))
         steps
  /\ length steps = cssPathIterations toLowerCase thisNode
  /\ (nodeType thisNode = ELEMENT_NODE -> steps <> []).
Proof.
  intros E.
  destruct (nodeType_eqb (nodeType thisNode) ELEMENT_NODE) eqn:Ht.
  - apply nodeType_eqb_eq in Ht.
    destruct (cssPath_Ascent Ht E) as [HA Hlen].
    split; [|split; [exact Hlen|]].
    + apply Ascent_steps in HA. apply Forall_rev in HA.
      rewrite rev_involutive in HA. exact HA.
    + intros _ ->. simpl in HA. inversion HA.
  - unfold cssPath, cssPathIterations in *. rewrite Ht in *.
    inversion E; subst steps. simpl. repeat split; [constructor|].
    intros H. rewrite H in Ht. discriminate Ht.
Qed.

(** X9. The first step of a path, the root-most, is optimized, unless the
    parent of its node is neither an element nor a document. *)
Theorem cssPath_root_most_step (first : CSSPathStep)
    (rest : list CSSPathStep) :
  cssPath toLowerCase thisNode = Ok (first :: rest) ->
  optimized first = true
  \/ exists parent,
       parentNode (stepNode first) = Some parent
       /\ nodeType parent = OTHER_NODE.
Proof.
  intros E.
  destruct (nodeType_eqb (nodeType thisNode) ELEMENT_NODE) eqn:Ht.
  - apply nodeType_eqb_eq in Ht.
    destruct (cssPath_Ascent Ht E) as [HA _].
    destruct (Ascent_last_step HA) as (init & final & E' & H).
    simpl in E'. apply app_inj_tail in E'. destruct E' as [_ ->]. exact H.
  - unfold cssPath in E. rewrite Ht in E. discriminate E.
Qed.

(** The loop on an element throws nothing but the error of the child of a
    document. *)
Lemma ascend_throw (fs : list Frame) :
  forall (t : DomTree) (steps : list CSSPathStep) (k : nat) (e : Error),
    isElement t = true ->
    fst (ascend toLowerCase thisNode t fs steps k) = Throw e ->
    e = ChildOfDocumentMustBeHtml.
Proof.
  assert (Hstep : forall c b e,
             nodeType c = ELEMENT_NODE ->
             newCSSPathStep toLowerCase c b = Throw e ->
             e = ChildOfDocumentMustBeHtml).
  { intros c b e Ht. unfold newCSSPathStep.
    destruct (computeStep toLowerCase c b) as [s|e'] eqn:Ec; [discriminate|].
    simpl. intros E; inversion E; subst e'.
    exact (@computeStep_element_throw toLowerCase c b e Ht Ec). }
  induction fs as [|f fs IH]; intros t steps k e Ht; simpl;
    (destruct (newCSSPathStep _ _ _) as [step|e'] eqn:Es;
     [| simpl; intros E; inversion E; subst e';
        eapply Hstep; [|exact Es]; apply nodeType_eqb_eq; exact Ht ]);
    destruct (isNull step); try discriminate;
    destruct (optimized step); try discriminate.
  destruct (nodeType_eqb (frameType f) ELEMENT_NODE) eqn:Ef;
    [|discriminate].
  apply IH. exact Ef.
Qed.

(** X10. The constructor of [CSSSelectorFinder] throws nothing but the
    error of the child of a document: never the error of a node that is not
    an element. *)
Theorem newCSSSelectorFinder_only_error
    (minSpec : option SpecificityArray) (e : Error) :
  newCSSSelectorFinder toLowerCase thisNode minSpec = Throw e ->
  e = ChildOfDocumentMustBeHtml.
Proof.
  unfold newCSSSelectorFinder, cssPath, ascendFrom.
  destruct (nodeType_eqb (nodeType thisNode) ELEMENT_NODE) eqn:Ht; simpl;
    [|discriminate].
  destruct (fst (ascend _ _ _ _ _ _)) as [out|e'] eqn:Ea; simpl;
    [discriminate|].
  intros E; inversion E; subst e'.
  exact (ascend_throw _ _ _ _ Ht Ea).
Qed.

End PathSteps.

(* ================================================================== *)
(** ** Class names *)

Lemma splitWsFrom_pieces (s : jsstring) :
  forall (cur : jsstring) (inSep : bool),
    Forall (fun c => isWhiteSpace c = false) cur ->
    Forall (Forall (fun c => isWhiteSpace c = false))
           (splitWsFrom s cur inSep).
Proof.
  induction s as [|c s IH]; intros cur inSep Hcur; simpl.
  - constructor; [apply Forall_rev, Hcur | constructor].
  - destruct (isWhiteSpace c) eqn:Ec.
    + destruct inSep.
      * apply IH. constructor.
      * constructor; [apply Forall_rev, Hcur | apply IH; constructor].
    + apply IH. constructor; assumption.
Qed.

(** X11. Every entry of [prefixedElementClassNames] is [$] followed by a class
    name that is not empty and holds no white space, and [substring(1)]
    gives the class name back. *)
Theorem prefixedElementClassNames_names (node : Node) :
  Forall (fun prefixed =>
            exists name,
              prefixed = lit "$" ++ name
              /\ name <> []
              /\ Forall (fun c => isWhiteSpace c = false) name
              /\ substring1 prefixed = name)
         (prefixedElementClassNames node).
Proof.
  unfold prefixedElementClassNames.
  destruct (getAttribute node (lit "class")) as [[|c0 attr]|];
    [constructor| |constructor].
  apply Forall_map. unfold filterBoolean.
  apply Forall_forall. intros name Hin. apply filter_In in Hin.
  destruct Hin as [Hin Hne]. exists name.
  split; [reflexivity|]. split; [intros ->; discriminate Hne|].
  split; [|reflexivity].
  pose proof (@splitWsFrom_pieces (c0 :: attr) [] false (Forall_nil _)) as H.
  rewrite Forall_forall in H. apply H. exact Hin.
Qed.

(* ================================================================== *)
(** ** The escapes can be read back *)

Lemma toHexByte_value_table :
  forallb (fun c =>
             match toHexByte c with
             | [h1; h2] =>
                 (16 * hexValue h1 + hexValue h2 =? c)%N
                 && (isDigit h1 || inRange "a" "f" h1)
                 && (isDigit h2 || inRange "a" "f" h2)
             | _ => false
             end)
          (map N.of_nat (seq 0 256)) = true.
Proof. vm_compute. reflexivity. Qed.

(** X12. For a code unit below 256, [toHexByte] gives exactly two digits
    among [0-9a-f], and their value is the code unit. *)
Theorem toHexByte_two_digits (c : N) :
  (c < 256)%N ->
  exists h1 h2,
    toHexByte c = [h1; h2]
    /\ (16 * hexValue h1 + hexValue h2)%N = c
    /\ isDigit h1 || inRange "a" "f" h1 = true
    /\ isDigit h2 || inRange "a" "f" h2 = true.
Proof.
  intros Hc. pose proof toHexByte_value_table as T.
  rewrite forallb_forall in T.
  assert (Hin : In c (map N.of_nat (seq 0 256))).
  { apply in_map_iff. exists (N.to_nat c). split; [apply N2Nat.id|].
    apply in_seq. lia. }
  specialize (T c Hin).
  destruct (toHexByte c) as [|h1 [|h2 [|h3 l]]]; try discriminate T.
  apply andb_true_iff in T. destruct T as [T H2].
  apply andb_true_iff in T. destruct T as [T H1].
  apply N.eqb_eq in T. exists h1, h2. auto.
Qed.

Lemma toHexByte_digits (c : N) :
  (c < 256)%N ->
  exists h1 h2,
    toHexByte c = [h1; h2] /\ (16 * hexValue h1 + hexValue h2)%N = c.
Proof.
  intros Hc. rewrite (toHexByte_byte Hc). unfold hexByte.
  exists (hexDigit (c / 16)), (hexDigit (c mod 16)).
  split; [reflexivity|].
  assert (Hd : forall d, (d < 16)%N -> hexValue (hexDigit d) = d).
  { intros d Hdlt.
    assert (Ht : forallb (fun d => (hexValue (hexDigit d) =? d)%N)
                         (map N.of_nat (seq 0 16)) = true)
      by (vm_compute; reflexivity).
    rewrite forallb_forall in Ht. apply N.eqb_eq, Ht.
    apply in_map_iff. exists (N.to_nat d). split; [apply N2Nat.id|].
    apply in_seq. lia. }
  rewrite !Hd.
  - symmetry. apply N.div_mod'.
  - apply N.mod_lt. discriminate.
  - apply N.Div0.div_lt_upper_bound. lia.
Qed.

Lemma unescape_raw (c : N) (out : jsstring) :
  c <> cu "092" -> unescape (c :: out) = c :: unescape out.
Proof.
  intros Hc.
  assert (E : (c =? cu "092")%N = false) by (apply N.eqb_neq; exact Hc).
  cbn [unescape]. rewrite E. reflexivity.
Qed.

Lemma unescape_escaped (c : N) (out : jsstring) :
  (c < 256)%N ->
  unescape (escapeAsciiChar c false ++ out) = c :: unescape out.
Proof.
  intros Hc. destruct (toHexByte_digits Hc) as (h1 & h2 & E & Hv).
  unfold escapeAsciiChar. rewrite E, <- Hv at 1. reflexivity.
Qed.

Lemma unescape_escaped_last (c : N) :
  (c < 256)%N -> unescape (escapeAsciiChar c true) = [c].
Proof.
  intros Hc. destruct (toHexByte_digits Hc) as (h1 & h2 & E & Hv).
  unfold escapeAsciiChar. rewrite E, <- Hv at 1. reflexivity.
Qed.

Lemma unescape_replaceDot (force : bool) (lastIndex : Z) :
  forall (s : jsstring) (i : Z),
    (0 <= i)%Z ->
    lastIndex = (i + Z.of_nat (length s) - 1)%Z ->
    (force = true -> i = 0%Z -> beginsWithDigitOrDash s = true) ->
    unescape
      (replaceDotFrom
         (fun c j =>
            if (force && (j =? 0)%Z) || negb (isCSSIdentChar c)
            then escapeAsciiChar c (j =? lastIndex)%Z
            else [c])
         s i)
    = s.
Proof.
  induction s as [|c rest IH]; intros i Hi Hlast Hforce; [reflexivity|].
  cbn [replaceDotFrom].
  assert (Hrest : unescape
                    (replaceDotFrom
                       (fun c j =>
                          if (force && (j =? 0)%Z) || negb (isCSSIdentChar c)
                          then escapeAsciiChar c (j =? lastIndex)%Z
                          else [c])
                       rest (i + 1)) = rest).
  { apply IH; [lia | simpl length in Hlast; lia | intros _ H; lia]. }
  destruct (isLineTerminator c) eqn:El.
  { simpl app. rewrite unescape_raw, Hrest; [reflexivity|].
    intros ->. discriminate El. }
  destruct ((force && (i =? 0)%Z) || negb (isCSSIdentChar c)) eqn:Ec.
  - assert (Hc : (c < 256)%N).
    { apply orb_true_iff in Ec. destruct Ec as [Ec|Ec].
      - apply andb_true_iff in Ec. destruct Ec as [Ef Ei].
        apply Z.eqb_eq in Ei. apply digit_or_dash_byte.
        exact (Hforce Ef Ei).
      - rewrite not_identChar_below_a0 in Ec.
        apply andb_true_iff in Ec. destruct Ec as [_ Ec].
        apply N.ltb_lt in Ec. lia. }
    destruct rest as [|c' rest'].
    + replace (i =? lastIndex)%Z with true
        by (symmetry; apply Z.eqb_eq; simpl length in Hlast; lia).
      simpl replaceDotFrom. rewrite app_nil_r.
      rewrite (unescape_escaped_last Hc). reflexivity.
    + replace (i =? lastIndex)%Z with false
        by (symmetry; apply Z.eqb_neq; simpl length in Hlast; lia).
      rewrite (unescape_escaped _ Hc), Hrest. reflexivity.
  - simpl app. rewrite unescape_raw, Hrest; [reflexivity|].
    intros ->. apply orb_false_iff in Ec. destruct Ec as [_ Ec].
    discriminate Ec.
Qed.

Lemma unescape_no_backslash (s : jsstring) :
  ~ In (cu "092") s -> unescape s = s.
Proof.
  induction s as [|c s IH]; intros Hn; [reflexivity|].
  rewrite unescape_raw, IH; [reflexivity | |].
  - intros H. apply Hn. right. exact H.
  - intros ->. apply Hn. left. reflexivity.
Qed.

Lemma unescape_bareIdentifier (ident : jsstring) :
  bareIdentifier ident = true -> unescape ident = ident.
Proof.
  intros Eb. apply unescape_no_backslash. intros Hin.
  apply bareIdentifier_class in Eb. rewrite forallb_forall in Eb.
  apply Eb in Hin. discriminate Hin.
Qed.

(** X13. Reading the escapes of an escaped identifier back gives the
    identifier. *)
Theorem escapeIdentifierIfNeeded_round_trip (ident : jsstring) :
  unescape (escapeIdentifierIfNeeded ident) = ident.
Proof.
  unfold escapeIdentifierIfNeeded. rewrite isCSSIdentifier_bare.
  destruct (bareIdentifier ident) eqn:Eb.
  - exact (unescape_bareIdentifier _ Eb).
  - rewrite shouldEscapeFirst_begins. unfold replaceDot.
    apply unescape_replaceDot; auto; lia.
Qed.

(** X14. Two identifiers with the same escaped form are the same
    identifier. *)
Theorem escapeIdentifierIfNeeded_injective (a b : jsstring) :
  escapeIdentifierIfNeeded a = escapeIdentifierIfNeeded b -> a = b.
Proof.
  assert (Hback : forall s, unescape (escapeIdentifierIfNeeded s) = s).
  { intros s. unfold escapeIdentifierIfNeeded. rewrite isCSSIdentifier_bare.
    destruct (bareIdentifier s) eqn:Eb.
    - exact (unescape_bareIdentifier _ Eb).
    - rewrite shouldEscapeFirst_begins. unfold replaceDot.
      apply unescape_replaceDot; auto; lia. }
  intros E. rewrite <- (Hback a), <- (Hback b), E. reflexivity.
Qed.

(* ================================================================== *)
(** ** The code units of an escaped identifier *)

Lemma hex_string_class (d : Hexadecimal.uint) :
  Forall (fun c => isIdentClass c = true)
         (lit (HexadecimalString.NilEmpty.string_of_uint d)).
Proof. induction d; simpl; constructor; auto. Qed.

Lemma toHexByte_class (c : N) :
  Forall (fun h => isIdentClass h = true) (toHexByte c).
Proof.
  assert (H : Forall (fun h => isIdentClass h = true) (toString16 c)).
  { unfold toString16, HexadecimalString.NilZero.string_of_uint.
    destruct (N.to_hex_uint c) eqn:E;
      try (rewrite <- E; apply hex_string_class).
    simpl. repeat constructor. }
  unfold toHexByte. destruct (Nat.eqb _ 1); [|exact H].
  simpl. constructor; [reflexivity | exact H].
Qed.

(** X15. What an escaped identifier is made of: code units of
    [[A-Za-z0-9_-]], code units at or above 0xA0, the backslash and the space
    of the escapes, and line terminators. No other code unit below 0xA0 is
    left as it is. *)
Theorem escapeIdentifierIfNeeded_alphabet (ident : jsstring) :
  Forall (fun c =>
            isIdentClass c = true
            \/ (0xa0 <= c)%N
            \/ c = cu "092"
            \/ c = cu " "
            \/ isLineTerminator c = true)
         (escapeIdentifierIfNeeded ident).
Proof.
  unfold escapeIdentifierIfNeeded. rewrite isCSSIdentifier_bare.
  destruct (bareIdentifier ident) eqn:Eb.
  - apply bareIdentifier_class in Eb. rewrite forallb_forall in Eb.
    apply Forall_forall. intros c Hin. left. apply Eb, Hin.
  - unfold replaceDot. generalize 0%Z at 2.
    generalize (testPrefix reShouldEscapeFirst ident) as force.
    generalize (Z.of_nat (length ident) - 1)%Z as lastIndex.
    intros lastIndex force. clear Eb.
    induction ident as [|c rest IH]; intros i; simpl; [constructor|].
    apply Forall_app. split; [|apply IH].
    destruct (isLineTerminator c) eqn:El;
      [apply Forall_cons; [tauto | apply Forall_nil]|].
    destruct (_ || negb (isCSSIdentChar c)) eqn:Ec.
    + unfold escapeAsciiChar. simpl. apply Forall_cons; [tauto|].
      apply Forall_app. split.
      * eapply Forall_impl; [|apply toHexByte_class]. tauto.
      * destruct (_ =? lastIndex)%Z; [apply Forall_nil|].
        apply Forall_cons; [tauto | apply Forall_nil].
    + apply orb_false_iff in Ec. destruct Ec as [_ Ec].
      apply negb_false_iff in Ec. rewrite isCSSIdentChar_class in Ec.
      apply orb_true_iff in Ec. rewrite N.leb_le in Ec.
      apply Forall_cons; [tauto | apply Forall_nil].
Qed.

(* ================================================================== *)
(** ** The path of an element and the path of its parent *)

Section ParentPath.

Variable toLowerCase : jsstring -> jsstring.

(** The flag of the target matters to [computeStep] only through the [type]
    decoration. *)
Lemma computeStep_flag (node : Node) :
  decorates toLowerCase node true (toLowerCase (tagName node)) = false ->
  computeStep toLowerCase node true = computeStep toLowerCase node false.
Proof.
  intros Hd. unfold computeStep.
  destruct (negb (nodeType_eqb (nodeType node) ELEMENT_NODE)); [reflexivity|].
  destruct (getOptimizedValue toLowerCase node) as [[s|]|e]; try reflexivity.
  simpl. destruct (getWritingMode toLowerCase node) as [wm|e];
    [|reflexivity].
  simpl. rewrite Hd. reflexivity.
Qed.

(** The steps already pushed do not matter to the loop. *)
Lemma ascend_accumulator (thisNode : Node) (fs : list Frame) :
  forall (t : DomTree) (steps : list CSSPathStep) (k : nat),
    fst (ascend toLowerCase thisNode t fs steps k)
    = mapResult (fun pushed => steps ++ pushed)
                (fst (ascend toLowerCase thisNode t fs [] 0)).
Proof.
  induction fs as [|f fs IH]; intros t steps k; simpl;
    (destruct (newCSSPathStep _ _ _) as [step|e]; [|reflexivity]);
    (destruct (isNull step); [simpl; rewrite app_nil_r; reflexivity|]);
    (destruct (optimized step); [reflexivity|]); try reflexivity.
  destruct (nodeType_eqb (frameType f) ELEMENT_NODE); [|reflexivity].
  rewrite (IH _ (steps ++ [step])), (IH _ [step]).
  destruct (fst (ascend _ _ _ _ [] 0)) as [pushed|e]; simpl;
    [rewrite <- app_assoc|]; reflexivity.
Qed.

(** Above two targets the loop does the same, whichever is the target. *)
Lemma ascend_above_targets (this1 this2 : Node) (fs : list Frame) :
  forall t : DomTree,
    length fs < length (ancestors this1) ->
    length fs < length (ancestors this2) ->
    fst (ascend toLowerCase this1 t fs [] 0)
    = fst (ascend toLowerCase this2 t fs [] 0).
Proof.
  assert (Hflag : forall this t0 fs0,
             length fs0 < length (ancestors this) ->
             sameNode (mkNode t0 fs0) this = false).
  { intros this t0 fs0 Hlt. destruct (sameNode _ _) eqn:E; [|reflexivity].
    apply position_eqb_length in E. unfold position in E.
    rewrite !length_map in E. simpl in E. lia. }
  induction fs as [|f fs IH]; intros t H1 H2; simpl;
    rewrite (Hflag this1 _ _ H1), (Hflag this2 _ _ H2);
    (destruct (newCSSPathStep _ _ _) as [step|e]; [|reflexivity]);
    (destruct (isNull step); [reflexivity|]);
    (destruct (optimized step); [reflexivity|]); try reflexivity.
  destruct (nodeType_eqb (frameType f) ELEMENT_NODE); [|reflexivity].
  rewrite (ascend_accumulator this1), (ascend_accumulator this2).
  simpl in H1, H2. rewrite IH by lia. reflexivity.
Qed.

(** The values of the path of a node as the target and as an ancestor of
    the target are the same, when the node does not get the decoration. *)
Lemma ascend_values_as_ancestor (target parent : Node) :
  length (ancestors parent) < length (ancestors target) ->
  decorates toLowerCase parent true (toLowerCase (tagName parent)) = false ->
  mapResult (map value)
            (fst (ascend toLowerCase target (self parent) (ancestors parent)
                         [] 0))
  = mapResult (map value)
              (fst (ascend toLowerCase parent (self parent)
                           (ancestors parent) [] 0)).
Proof.
  intros Hlt Hd.
  assert (Hs1 : sameNode (mkNode (self parent) (ancestors parent)) target
                = false).
  { destruct (sameNode _ _) eqn:E; [|reflexivity].
    apply position_eqb_length in E. unfold position in E.
    rewrite !length_map in E. simpl in E. lia. }
  assert (Hs2 : sameNode (mkNode (self parent) (ancestors parent)) parent
                = true).
  { rewrite node_eta. apply sameNode_refl. }
  pose proof (computeStep_flag parent Hd) as Hc.
  destruct parent as [t fs]. simpl in *.
  destruct fs as [|f fs]; simpl; rewrite Hs1, Hs2; unfold newCSSPathStep;
    rewrite Hc;
    (destruct (computeStep toLowerCase _ false) as [s|e]; [|reflexivity]);
    simpl; unfold isNull; simpl;
    (destruct (stepValue s); [|reflexivity]);
    (destruct (stepOptimized s); [reflexivity|]); try reflexivity.
  destruct (nodeType_eqb (frameType f) ELEMENT_NODE); [|reflexivity].
  rewrite (ascend_accumulator target),
          (ascend_accumulator (mkNode t (f :: fs))).
  rewrite (@ascend_above_targets target (mkNode t (f :: fs)) fs (plug f t))
    by (simpl in *; lia).
  destruct (fst (ascend _ _ _ _ [] 0)); reflexivity.
Qed.

Lemma cssPath_values_extend (target parent : Node)
    (step : DOMNodePathStep) :
  parentElement target = Some parent ->
  computeStep toLowerCase target true = Ok step ->
  stepOptimized step = false ->
  decorates toLowerCase parent true (toLowerCase (tagName parent)) = false ->
  mapResult (map value) (cssPath toLowerCase target)
  = mapResult (fun values => values ++ [stepValue step])
              (mapResult (map value) (cssPath toLowerCase parent)).
Proof.
  intros Hp Ec Hopt Hd.
  destruct (computeStep_structural toLowerCase target true Ec Hopt)
    as (Ht & _).
  destruct (computeStep_value toLowerCase target true Ec) as (v & Hv).
  assert (Hpt : nodeType parent = ELEMENT_NODE).
  { unfold parentElement in Hp. destruct (parentNode target) as [p|];
      [|discriminate].
    destruct (nodeType_eqb (nodeType p) ELEMENT_NODE) eqn:E;
      [|discriminate].
    inversion Hp; subst p. apply nodeType_eqb_eq, E. }
  pose proof (parentElement_ancestors _ Hp) as Hlen.
  unfold cssPath. rewrite Ht, Hpt. simpl.
  rewrite ascendFrom_eq, sameNode_refl. unfold newCSSPathStep at 1.
  rewrite Ec. simpl. unfold isNull. simpl. rewrite Hv, Hopt, Hp.
  unfold ascendFrom.
  rewrite ascend_accumulator.
  pose proof (@ascend_values_as_ancestor target parent ltac:(lia) Hd) as Hvals.
  destruct (fst (ascend toLowerCase target _ _ [] 0)) as [p1|e1];
    destruct (fst (ascend toLowerCase parent _ _ [] 0)) as [p2|e2];
    simpl in *; try discriminate; try congruence.
  inversion Hvals as [Hm]. rewrite map_app, !map_rev, Hm. reflexivity.
Qed.

Lemma join_snoc (sep : jsstring) (l : list (option jsstring))
    (v : jsstring) :
  l <> [] -> join sep (l ++ [Some v]) = join sep l ++ sep ++ v.
Proof.
  induction l as [|x l IH]; intros Hne; [contradiction|].
  destruct l as [|y l].
  - simpl. destruct x; reflexivity.
  - change (join sep ((x :: y :: l) ++ [Some v]))
      with ((match x with Some s => s | None => [] end)
              ++ sep ++ join sep ((y :: l) ++ [Some v])).
    rewrite IH by discriminate.
    change (join sep (x :: y :: l))
      with ((match x with Some s => s | None => [] end)
              ++ sep ++ join sep (y :: l)).
    rewrite <- !app_assoc. reflexivity.
Qed.

Lemma toString_new (node : Node) (minSpec : option SpecificityArray) :
  mapResult toString (newCSSSelectorFinder toLowerCase node minSpec)
  = mapResult (fun values => join (lit " > ") values)
              (mapResult (map value) (cssPath toLowerCase node)).
Proof.
  unfold newCSSSelectorFinder.
  destruct (cssPath toLowerCase node); reflexivity.
Qed.

(** X16. The selector of an element whose own step is not optimized is the
    selector of its parent element, the child combinator and that step,
    provided the parent, as a target, gets no [type] decoration; and when the
    finder of the parent throws, the finder of the element throws the same
    error. *)
Theorem selector_extends_parent (target parent : Node)
    (step : DOMNodePathStep) (v : jsstring)
    (minSpec minSpec' : option SpecificityArray) :
  parentElement target = Some parent ->
  computeStep toLowerCase target true = Ok step ->
  stepOptimized step = false ->
  stepValue step = Some v ->
  decorates toLowerCase parent true (toLowerCase (tagName parent)) = false ->
  mapResult toString (newCSSSelectorFinder toLowerCase target minSpec)
  = mapResult (fun selector => selector ++ lit " > " ++ v)
      (mapResult toString (newCSSSelectorFinder toLowerCase parent minSpec')).
Proof.
  intros Hp Ec Hopt Hv Hd.
  rewrite !toString_new,
          (@cssPath_values_extend target parent step Hp Ec Hopt Hd), Hv.
  destruct (cssPath toLowerCase parent) as [steps|e] eqn:Epath;
    [|reflexivity].
  simpl. f_equal. apply join_snoc.
  assert (Hpt : nodeType parent = ELEMENT_NODE).
  { unfold parentElement in Hp. destruct (parentNode target) as [p|];
      [|discriminate].
    destruct (nodeType_eqb (nodeType p) ELEMENT_NODE) eqn:E;
      [|discriminate].
    inversion Hp; subst p. apply nodeType_eqb_eq, E. }
  destruct (cssPath_Ascent toLowerCase parent Hpt Epath) as [HA _].
  destruct (Ascent_head HA) as (s & rest & E & _).
  intros Hnil. apply map_eq_nil in Hnil. subst steps. discriminate E.
Qed.

End ParentPath.

(* ================================================================== *)
(** ** The selector of an element with an id *)

(** X17. An element with a non-empty [id] gets the selector [#] followed by
    the escaped id, whatever its tag and wherever it is in the tree; the id
    itself when it is a bare identifier. *)
Theorem id_target_selector (toLowerCase : jsstring -> jsstring)
    (node : Node) (id : jsstring) (minSpec : option SpecificityArray) :
  nodeType node = ELEMENT_NODE ->
  getAttribute node (lit "id") = Some id ->
  id <> [] ->
  mapResult toString (newCSSSelectorFinder toLowerCase node minSpec)
  = Ok (lit "#" ++ escapeIdentifierIfNeeded id)
  /\ (bareIdentifier id = true ->
      mapResult toString (newCSSSelectorFinder toLowerCase node minSpec)
      = Ok (lit "#" ++ id)).
Proof.
  intros Ht Hid Hne.
  assert (E : mapResult toString
                (newCSSSelectorFinder toLowerCase node minSpec)
              = Ok (lit "#" ++ escapeIdentifierIfNeeded id)).
  { unfold newCSSSelectorFinder, cssPath. rewrite Ht. cbn [nodeType_eqb negb].
    rewrite ascendFrom_eq.
    unfold newCSSPathStep, computeStep, getOptimizedValue.
    rewrite Ht, Hid. destruct id as [|c id]; [contradiction|]. reflexivity. }
  split; [exact E|].
  intros Hb. rewrite E, (escapeIdentifierIfNeeded_bare _ Hb). reflexivity.
Qed.

Lemma id_target_selector_witness :
  let node := nodeAt mainParagraph [0; 0; 0] in
  nodeType node = ELEMENT_NODE
  /\ getAttribute node (lit "id") = Some (lit "main")
  /\ lit "main" <> []
  /\ mapResult toString (newCSSSelectorFinder asciiToLowerCase node None)
     = Ok (lit "#" ++ escapeIdentifierIfNeeded (lit "main"))
  /\ (bareIdentifier (lit "main") = true ->
      mapResult toString (newCSSSelectorFinder asciiToLowerCase node None)
      = Ok (lit "#" ++ lit "main")).
Proof.
  intros node.
  assert (Hne : lit "main" <> []) by discriminate.
  split; [reflexivity|]. split; [reflexivity|]. split; [exact Hne|].
  apply (@id_target_selector asciiToLowerCase node (lit "main") None
           eq_refl eq_refl Hne).
Defined.

(* ================================================================== *)
(** ** Instances *)

Lemma getWritingMode_classes_witness :
  let node := nodeAt sharedClasses [0; 0; 0; 1] in
  let wm := mkWritingModeResult TAGNAME_AND_CLASSNAME 1 [lit "$c"] in
  getWritingMode asciiToLowerCase node = Ok wm
  /\ incl (ownClassNames wm) (prefixedElementClassNames node)
  /\ (mode wm = NTH_CHILD -> ownClassNames wm = []).
Proof.
  intros node wm. split; [reflexivity|].
  apply (@getWritingMode_classes asciiToLowerCase node wm). reflexivity.
Defined.

Lemma surviving_class_of_no_sibling_witness :
  let node := nodeAt sharedClasses [0; 0; 0; 1] in
  let parent := nodeAt sharedClasses [0; 0; 0] in
  let s := nodeAt sharedClasses [0; 0; 0; 0] in
  let wm := mkWritingModeResult TAGNAME_AND_CLASSNAME 1 [lit "$c"] in
  NoDup (prefixedElementClassNames node)
  /\ parentNode node = Some parent
  /\ getWritingMode asciiToLowerCase node = Ok wm
  /\ mode wm = TAGNAME_AND_CLASSNAME
  /\ In s (children parent)
  /\ sameNode s node = false
  /\ asciiToLowerCase (tagName s) = asciiToLowerCase (tagName node)
  /\ In (lit "$a") (prefixedElementClassNames s)
  /\ ~ In (lit "$a") (ownClassNames wm).
Proof.
  intros node parent s wm.
  assert (Hnd : NoDup (prefixedElementClassNames node)).
  { vm_compute.
    repeat (constructor; [simpl; intuition discriminate|]). constructor. }
  assert (Hin : In s (children parent)) by (left; reflexivity).
  assert (Hc : In (lit "$a") (prefixedElementClassNames s))
    by (left; reflexivity).
  split; [exact Hnd|]. split; [reflexivity|]. split; [reflexivity|].
  split; [reflexivity|]. split; [exact Hin|]. split; [reflexivity|].
  split; [reflexivity|]. split; [exact Hc|].
  apply (@surviving_class_of_no_sibling asciiToLowerCase node parent wm s
           (lit "$a") Hnd eq_refl eq_refl eq_refl Hin eq_refl eq_refl Hc).
Defined.

Lemma no_same_tag_sibling_keeps_classes_witness :
  let node := nodeAt spans [0; 0; 3] in
  let parent := nodeAt spans [0; 0] in
  parentNode node = Some parent
  /\ (forall s, In s (children parent) ->
        sameNode s node = false ->
        asciiToLowerCase (tagName s) <> asciiToLowerCase (tagName node))
  /\ exists i,
       getWritingMode asciiToLowerCase node
       = Ok (mkWritingModeResult TAGNAME_AND_CLASSNAME i
               (prefixedElementClassNames node)).
Proof.
  intros node parent.
  assert (Hall : forall s, In s (children parent) ->
                   sameNode s node = false ->
                   asciiToLowerCase (tagName s)
                   <> asciiToLowerCase (tagName node)).
  { intros s Hin Hs.
    destruct Hin as [<-|[<-|[<-|[<-|[]]]]];
      solve [vm_compute; discriminate | vm_compute in Hs; discriminate Hs]. }
  split; [reflexivity|]. split; [exact Hall|].
  apply (@no_same_tag_sibling_keeps_classes asciiToLowerCase node parent
           eq_refl Hall).
Defined.

Lemma classless_nth_child_iff_witness :
  let node := nodeAt threeParagraphs [0; 0; 0; 0] in
  let parent := nodeAt threeParagraphs [0; 0; 0] in
  let wm := mkWritingModeResult NTH_CHILD 0 [] in
  prefixedElementClassNames node = []
  /\ parentNode node = Some parent
  /\ getWritingMode asciiToLowerCase node = Ok wm
  /\ (mode wm = NTH_CHILD
      <-> exists s, In s (children parent)
                    /\ sameNode s node = false
                    /\ asciiToLowerCase (tagName s)
                       = asciiToLowerCase (tagName node)).
Proof.
  intros node parent wm.
  split; [reflexivity|]. split; [reflexivity|]. split; [reflexivity|].
  apply (@classless_nth_child_iff asciiToLowerCase node parent wm);
    reflexivity.
Defined.

Lemma cssPath_follows_ancestors_witness :
  let thisNode := nodeAt threeParagraphs [0; 0; 0; 2] in
  let body := nodeAt threeParagraphs [0; 0] in
  let div := nodeAt threeParagraphs [0; 0; 0] in
  let steps :=
    [mkCSSPathStep body false (Some (lit "body")) true;
     mkCSSPathStep div false (Some (lit "div")) false;
     mkCSSPathStep thisNode true (Some (lit "p:nth-child(3)")) false] in
  cssPath asciiToLowerCase thisNode = Ok steps
  /\ (forall l1 a b l2,
        steps = l1 ++ a :: b :: l2 ->
        parentElement (stepNode b) = Some (stepNode a)
        /\ optimized b = false)
  /\ (forall l1 final, steps = l1 ++ [final] -> stepNode final = thisNode).
Proof.
  intros thisNode body div steps. split; [reflexivity|].
  apply (@cssPath_follows_ancestors asciiToLowerCase thisNode steps).
  reflexivity.
Defined.

Lemma cssPath_target_flag_witness :
  let thisNode := nodeAt threeParagraphs [0; 0; 0; 2] in
  let body := nodeAt threeParagraphs [0; 0] in
  let div := nodeAt threeParagraphs [0; 0; 0] in
  let l1 :=
    [mkCSSPathStep body false (Some (lit "body")) true;
     mkCSSPathStep div false (Some (lit "div")) false] in
  let final :=
    mkCSSPathStep thisNode true (Some (lit "p:nth-child(3)")) false in
  cssPath asciiToLowerCase thisNode = Ok (l1 ++ [final])
  /\ l1 ++ [final] = l1 ++ [final]
  /\ isTargetNode final = true
  /\ Forall (fun s => isTargetNode s = false) l1.
Proof.
  intros thisNode body div l1 final.
  split; [reflexivity|]. split; [reflexivity|].
  apply (@cssPath_target_flag asciiToLowerCase thisNode (l1 ++ [final]) l1
           final); reflexivity.
Defined.

Lemma cssPath_steps_computed_witness :
  let thisNode := nodeAt threeParagraphs [0; 0; 0; 2] in
  let body := nodeAt threeParagraphs [0; 0] in
  let div := nodeAt threeParagraphs [0; 0; 0] in
  let steps :=
    [mkCSSPathStep body false (Some (lit "body")) true;
     mkCSSPathStep div false (Some (lit "div")) false;
     mkCSSPathStep thisNode true (Some (lit "p:nth-child(3)")) false] in
  cssPath asciiToLowerCase thisNode = Ok steps
  /\ Forall (fun s =>
               exists v,
                 value s = Some v
                 /\ computeStep asciiToLowerCase (stepNode s) (isTargetNode s)
                    = Ok (mkDOMNodePathStep (Some v) (optimized s)))
            steps
  /\ length steps = cssPathIterations asciiToLowerCase thisNode
  /\ (nodeType thisNode = ELEMENT_NODE -> steps <> []).
Proof.
  intros thisNode body div steps. split; [reflexivity|].
  apply (@cssPath_steps_computed asciiToLowerCase thisNode steps).
  reflexivity.
Defined.

Lemma cssPath_root_most_step_witness :
  let thisNode := nodeAt threeParagraphs [0; 0; 0; 2] in
  let body := nodeAt threeParagraphs [0; 0] in
  let div := nodeAt threeParagraphs [0; 0; 0] in
  let first := mkCSSPathStep body false (Some (lit "body")) true in
  let rest :=
    [mkCSSPathStep div false (Some (lit "div")) false;
     mkCSSPathStep thisNode true (Some (lit "p:nth-child(3)")) false] in
  cssPath asciiToLowerCase thisNode = Ok (first :: rest)
  /\ (optimized first = true
      \/ exists parent,
           parentNode (stepNode first) = Some parent
           /\ nodeType parent = OTHER_NODE).
Proof.
  intros thisNode body div first rest. split; [reflexivity|].
  apply (@cssPath_root_most_step asciiToLowerCase thisNode first rest).
  reflexivity.
Defined.

Lemma newCSSSelectorFinder_only_error_witness :
  let thisNode := nodeAt documentOfDiv [0] in
  newCSSSelectorFinder asciiToLowerCase thisNode None
  = Throw ChildOfDocumentMustBeHtml
  /\ ChildOfDocumentMustBeHtml = ChildOfDocumentMustBeHtml.
Proof.
  intros thisNode. split; [reflexivity|].
  apply (@newCSSSelectorFinder_only_error asciiToLowerCase thisNode None
           ChildOfDocumentMustBeHtml).
  reflexivity.
Defined.

Lemma selector_extends_parent_witness :
  let target := nodeAt threeParagraphs [0; 0; 0; 2] in
  let parent := nodeAt threeParagraphs [0; 0; 0] in
  let v := lit "p:nth-child(3)" in
  let step := mkDOMNodePathStep (Some v) false in
  parentElement target = Some parent
  /\ computeStep asciiToLowerCase target true = Ok step
  /\ stepOptimized step = false
  /\ stepValue step = Some v
  /\ decorates asciiToLowerCase parent true
               (asciiToLowerCase (tagName parent)) = false
  /\ mapResult toString (newCSSSelectorFinder asciiToLowerCase target None)
     = mapResult (fun selector => selector ++ lit " > " ++ v)
         (mapResult toString
            (newCSSSelectorFinder asciiToLowerCase parent None)).
Proof.
  intros target parent v step.
  split; [reflexivity|]. split; [reflexivity|]. split; [reflexivity|].
  split; [reflexivity|]. split; [reflexivity|].
  apply (@selector_extends_parent asciiToLowerCase target parent step v
           None None); reflexivity.
Defined.

Lemma toHexByte_two_digits_witness :
  (10 < 256)%N
  /\ exists h1 h2,
       toHexByte 10 = [h1; h2]
       /\ (16 * hexValue h1 + hexValue h2)%N = 10%N
       /\ isDigit h1 || inRange "a" "f" h1 = true
       /\ isDigit h2 || inRange "a" "f" h2 = true.
Proof.
  split; [reflexivity|].
  apply (@toHexByte_two_digits 10%N). reflexivity.
Defined.

Lemma escapeIdentifierIfNeeded_injective_witness :
  escapeIdentifierIfNeeded (lit "a.b") = escapeIdentifierIfNeeded (lit "a.b")
  /\ lit "a.b" = lit "a.b".
Proof.
  split; [reflexivity|].
  apply (@escapeIdentifierIfNeeded_injective (lit "a.b") (lit "a.b")).
  reflexivity.
Defined.
